(** * jellysink: release-group blacklist scripts

    A shallow embedding of [scripts/generate_blacklist_from_srrdb.py] and
    [scripts/update_blacklist.py], and the properties of the group-token
    pipeline they implement.

    Text.  A Python [str] is modelled by [string]; a character is a code
    point below 256.  Character classes, case mapping and whitespace follow
    Python 3 on that range.  The classification of a release name is also
    embedded over texts of characters of any type (module [Uni]), with the
    two Unicode tables that its patterns consult as parameters.

    Regular expressions.  The scripts use [re] with five patterns.  They are
    embedded as terms of a small regex syntax and run by a backtracking
    matcher with the semantics of [re.search] and [Pattern.match]. *)

From Stdlib Require Import Ascii String List Bool Arith Lia.
From stdpp Require Import gmap strings sorting.

(* ===================================================================== *)
(** ** Characters *)

Module Chr.

Definition code (c : ascii) : nat := nat_of_ascii c.

Definition between (lo hi : nat) (c : ascii) : bool :=
  (lo <=? code c)%nat && (code c <=? hi)%nat.

(** [[A-Z]], [[a-z]], [[0-9]] and the classes built from them. *)
Definition is_upper (c : ascii) : bool := between 65 90 c.
Definition is_lower (c : ascii) : bool := between 97 122 c.
Definition is_digit (c : ascii) : bool := between 48 57 c.
Definition is_alpha (c : ascii) : bool := is_upper c || is_lower c.
Definition is_alnum (c : ascii) : bool := is_alpha c || is_digit c.

(** The ASCII characters: code points below 128. *)
Definition is_ascii (c : ascii) : bool := (code c <? 128)%nat.

(** [str.isspace] on one character: TAB..CR, FS..US, SPACE, NEL, NBSP. *)
Definition is_space (c : ascii) : bool :=
  between 9 13 c || between 28 32 c
  || (code c =? 133)%nat || (code c =? 160)%nat.

(** Characters that have a lowercase / an uppercase one position 32 away:
    the ASCII letters and the Latin-1 letters around the two operators
    U+00D7 and U+00F7. *)
Definition has_lower (c : ascii) : bool :=
  is_upper c || between 192 214 c || between 216 222 c.
Definition has_upper (c : ascii) : bool :=
  is_lower c || between 224 246 c || between 248 254 c.

Definition to_lower (c : ascii) : ascii :=
  if has_lower c then ascii_of_nat (code c + 32) else c.
Definition to_upper (c : ascii) : ascii :=
  if has_upper c then ascii_of_nat (code c - 32) else c.

(** Equality of two characters, exact or up to case ([re.IGNORECASE]). *)
Definition eqb_case (ignorecase : bool) (c x : ascii) : bool :=
  if ignorecase then Ascii.eqb (to_lower c) (to_lower x) else Ascii.eqb c x.

End Chr.

(* ===================================================================== *)
(** ** Strings: the [str] methods the scripts call *)

Module Str.

Fixpoint map (f : ascii -> ascii) (s : string) : string :=
  match s with
  | EmptyString => EmptyString
  | String c s' => String (f c) (map f s')
  end.

(** [s.lower()] *)
Definition lower (s : string) : string := map Chr.to_lower s.

(** [s.upper()].  U+00DF uppercases to the two letters SS.  The uppercase
    forms of U+00B5 and U+00FF lie above U+00FF; the two characters are
    kept (neither form is an ASCII character). *)
Fixpoint upper (s : string) : string :=
  match s with
  | EmptyString => EmptyString
  | String c s' =>
      if (Chr.code c =? 223)%nat then String "S"%char (String "S"%char (upper s'))
      else String (Chr.to_upper c) (upper s')
  end.

Fixpoint lstrip (s : string) : string :=
  match s with
  | EmptyString => EmptyString
  | String c s' => if Chr.is_space c then lstrip s' else s
  end.

Fixpoint rstrip (s : string) : string :=
  match s with
  | EmptyString => EmptyString
  | String c s' =>
      match rstrip s' with
      | EmptyString => if Chr.is_space c then EmptyString else String c EmptyString
      | t => String c t
      end
  end.

(** [s.strip()] *)
Definition strip (s : string) : string := rstrip (lstrip s).

(** [s.split(sep)[0]] for a one-character separator: the text before the
    first separator, the whole text when there is none. *)
Fixpoint first_field (sep : ascii) (s : string) : string :=
  match s with
  | EmptyString => EmptyString
  | String c s' => if Ascii.eqb c sep then EmptyString else String c (first_field sep s')
  end.

Fixpoint starts_with (p s : string) : bool :=
  match p, s with
  | EmptyString, _ => true
  | String a p', String b s' => Ascii.eqb a b && starts_with p' s'
  | String _ _, EmptyString => false
  end.

(** [needle in s] *)
Fixpoint contains (needle s : string) : bool :=
  starts_with needle s
  || match s with
     | EmptyString => false
     | String _ s' => contains needle s'
     end.

Fixpoint all (p : ascii -> bool) (s : string) : bool :=
  match s with
  | EmptyString => true
  | String c s' => p c && all p s'
  end.

Fixpoint take (n : nat) (s : string) : string :=
  match n, s with
  | S n', String c s' => String c (take n' s')
  | _, _ => EmptyString
  end.

End Str.

(* ===================================================================== *)
(** ** Regular expressions *)

Module Re.

(** The fragment of [re] syntax the scripts use.  Repetition is applied
    to character sets only ([[A-Za-z0-9]+], [[A-Za-z0-9]{1,}]); [\d{2}]
    is two [Cls]. *)
Inductive regex : Type :=
| Eps                                  (* empty pattern *)
| Lit (c : ascii)                      (* a literal character *)
| Cls (p : ascii -> bool)              (* a character set *)
| Seq (r1 r2 : regex)                  (* r1 r2 *)
| Alt (r1 r2 : regex)                  (* r1|r2, left alternative first *)
| Plus (p : ascii -> bool)             (* set+ (greedy) *)
| Group (r : regex)                    (* ( r ), capture group 1 *)
| Bol                                  (* ^ *)
| Eol.                                 (* $ *)

(** The matcher's position: how many characters lie before it, the text
    from it on, and what group 1 captured so far. *)
Record mstate : Type := MState {
  pos : nat;
  rest : string;
  group1 : option string
}.

(** Without [re.MULTILINE], [$] matches at the end of the string and just
    before a newline that is the last character of the string. *)
Definition at_end (s : string) : bool :=
  match s with
  | EmptyString => true
  | String c EmptyString => Ascii.eqb c "010"%char
  | _ => false
  end.

(** Greedy [set+] from the text [s] at offset [n]: take one character of
    the set, then first try to take more, and only then continue with
    [k]. *)
Fixpoint plus_loop (p : ascii -> bool) (g : option string)
    (s : string) (n : nat) (k : mstate -> option mstate) : option mstate :=
  match s with
  | EmptyString => None
  | String x s' =>
      if p x then
        match plus_loop p g s' (S n) k with
        | Some res => Some res
        | None => k (MState (S n) s' g)
        end
      else None
  end.

(** Backtracking matcher in continuation-passing style: [run ic r st k]
    matches [r] at [st] and hands every end position to [k], in the
    priority order of [re], until [k] accepts one.  [ic] is
    [re.IGNORECASE]; it bears on literals (the only set in a pattern
    compiled with it is [\d]). *)
Fixpoint run (ic : bool) (r : regex) (st : mstate)
    (k : mstate -> option mstate) : option mstate :=
  match r with
  | Eps => k st
  | Lit c =>
      match rest st with
      | String x s' =>
          if Chr.eqb_case ic c x then k (MState (S (pos st)) s' (group1 st)) else None
      | EmptyString => None
      end
  | Cls p =>
      match rest st with
      | String x s' =>
          if p x then k (MState (S (pos st)) s' (group1 st)) else None
      | EmptyString => None
      end
  | Seq r1 r2 => run ic r1 st (fun st' => run ic r2 st' k)
  | Alt r1 r2 =>
      match run ic r1 st k with
      | Some res => Some res
      | None => run ic r2 st k
      end
  | Plus p => plus_loop p (group1 st) (rest st) (pos st) k
  | Group r1 =>
      run ic r1 st (fun st' =>
        k (MState (pos st') (rest st')
             (Some (Str.take (pos st' - pos st) (rest st)))))
  | Bol => if (pos st =? 0)%nat then k st else None
  | Eol => if at_end (rest st) then k st else None
  end.

(** [pattern.match(s)]: a match that starts at offset 0. *)
Definition match_ (ic : bool) (r : regex) (s : string) : option mstate :=
  run ic r (MState 0 s None) Some.

(** [pattern.search(s)]: the match at the leftmost offset that has one. *)
Fixpoint search_from (ic : bool) (r : regex) (n : nat) (s : string) : option mstate :=
  match run ic r (MState n s None) Some with
  | Some res => Some res
  | None =>
      match s with
      | EmptyString => None
      | String _ s' => search_from ic r (S n) s'
      end
  end.

Definition search (ic : bool) (r : regex) (s : string) : option mstate :=
  search_from ic r 0 s.

(** A literal word, and an alternation of several patterns. *)
Fixpoint word (w : string) : regex :=
  match w with
  | EmptyString => Eps
  | String c w' => Seq (Lit c) (word w')
  end.

Fixpoint alts (r : regex) (rs : list regex) : regex :=
  match rs with
  | [] => r
  | r' :: rs' => Alt r (alts r' rs')
  end.

(** [w1|w2|...|wn] for literal words. *)
Definition any_of (ws : list string) : regex :=
  match ws with
  | [] => Eps
  | w :: ws' => alts (word w) (List.map word ws')
  end.

End Re.

(* ===================================================================== *)
(** ** generate_blacklist_from_srrdb.py *)

Import Re.

(** [r'-([A-Za-z0-9]+)$'] *)
Definition group_pattern : regex :=
  Seq (Lit "-"%char) (Seq (Group (Plus Chr.is_alnum)) Eol).

(** [r'S\d{2}E\d{2}|Season|Episode'], compiled with [re.IGNORECASE];
    [episode_regex] is its first alternative, [S\d{2}E\d{2}]. *)
Definition episode_regex : regex :=
  Seq (Lit "S"%char) (Seq (Cls Chr.is_digit) (Seq (Cls Chr.is_digit)
    (Seq (Lit "E"%char) (Seq (Cls Chr.is_digit) (Cls Chr.is_digit))))).

Definition tv_pattern : regex :=
  alts episode_regex [word "Season"; word "Episode"].

(** [r'DVDRip|BluRay|BRRip|WEBRip|HDTV|WEB-DL|1080p|720p|2160p|4K'],
    compiled with [re.IGNORECASE] *)
Definition movie_words : list string :=
  ["DVDRip"; "BluRay"; "BRRip"; "WEBRip"; "HDTV"; "WEB-DL";
   "1080p"; "720p"; "2160p"; "4K"].

Definition movie_pattern : regex := any_of movie_words.

(** [r'^[A-Za-z][A-Za-z0-9]{1,}$'] *)
Definition valid_pattern : regex :=
  Seq Bol (Seq (Cls Chr.is_alpha) (Seq (Plus Chr.is_alnum) Eol)).

(** [r'^(TEST|SAMPLE|PROOF|RARBG|ETRG|YTS|YIFY)'], compiled with
    [re.IGNORECASE] *)
Definition exclude_words : list string :=
  ["TEST"; "SAMPLE"; "PROOF"; "RARBG"; "ETRG"; "YTS"; "YIFY"].

Definition exclude_pattern : regex := Seq Bol (Group (any_of exclude_words)).

(** [release_name = line.split(',')[0].strip()] *)
Definition release_name (line : string) : string :=
  Str.strip (Str.first_field ","%char line).

(** [match = re.search(r'-([A-Za-z0-9]+)$', release_name)], then
    [match.group(1)] when there is a match. *)
Definition extract_group (name : string) : option string :=
  match search false group_pattern name with
  | Some m => group1 m
  | None => None
  end.

(** [is_tv = bool(tv_pattern.search(release_name))] and
    [is_movie = bool(movie_pattern.search(release_name)) and not is_tv]. *)
Definition is_tv (name : string) : bool :=
  bool_decide (is_Some (search true tv_pattern name)).

Definition is_movie (name : string) : bool :=
  bool_decide (is_Some (search true movie_pattern name)) && negb (is_tv name).

(** The class that the two flags give a release name. *)
Inductive classification : Type := TV | Movie | Unclassified.

Definition classify (name : string) : classification :=
  if is_tv name then TV else if is_movie name then Movie else Unclassified.

(** [valid_pattern.match(group)] and [exclude_pattern.match(group)], as
    truth values. *)
Definition is_valid_shape (group : string) : bool :=
  bool_decide (is_Some (match_ false valid_pattern group)).

Definition is_excluded (group : string) : bool :=
  bool_decide (is_Some (match_ true exclude_pattern group)).

(** [groups.add(x)] on a Python set. *)
Definition set_add (x : string) (groups : gset string) : gset string :=
  {[x]} ∪ groups.

(** [extract_release_groups]: the loop over the lines of the dump. *)
Definition extract_release_groups (lines : list string) : gset string :=
  foldl (fun groups line =>
           match extract_group (release_name line) with
           | Some g => set_add g groups
           | None => groups
           end) ∅ lines.

(** [filter_tv_movie_groups]: one iteration of the loop, and the loop. *)
Definition filter_step (groups : gset string) (line : string) : gset string :=
  let name := release_name line in
  if is_tv name || is_movie name then
    match extract_group name with
    | Some g => set_add g groups
    | None => groups
    end
  else groups.

Definition filter_tv_movie_groups (lines : list string) : gset string :=
  foldl filter_step ∅ lines.

(** [filter_valid_groups]: the loop over the members of [groups]. *)
Definition validate (group : string) : bool :=
  is_valid_shape group && negb (is_excluded group).

Definition filter_valid_groups (groups : gset string) : gset string :=
  foldl (fun valid group => if validate group then set_add group valid else valid)
        ∅ (elements groups).

(** [sorted(xs, key=key)]: a stable sort by [key], keys compared as Python
    compares [str] (code point by code point, a proper prefix first). *)
Fixpoint insert_by (key : string -> string) (x : string) (l : list string) : list string :=
  match l with
  | [] => [x]
  | y :: l' =>
      if String.leb (key y) (key x) then y :: insert_by key x l'
      else x :: y :: l'
  end.

Definition sorted (key : string -> string) (xs : list string) : list string :=
  foldl (fun acc x => insert_by key x acc) [] xs.

(** The order of [sorted]: by key. *)
Definition key_le (key : string -> string) (a b : string) : Prop :=
  String.le (key a) (key b).

(** The body of the loop of [generate_go_code] that fills [lines]: a line is
    kept as the list of its entries, each entry the lower-cased group that
    the script writes between quotes. *)
Definition line_step (st : list (list string) * list string) (group : string)
    : list (list string) * list string :=
  let current_line := snd st ++ [Str.lower group] in
  if (length current_line =? 8)%nat then (fst st ++ [current_line], [])
  else (fst st, current_line).

Definition go_lines (sorted_groups : list string) : list (list string) :=
  let st := foldl line_step ([], []) sorted_groups in
  match snd st with
  | [] => fst st
  | current_line => fst st ++ [current_line]
  end.

(** The Go function that [generate_go_code] writes: three string slices,
    the size hint of the map, and the header's count. *)
Record go_code : Type := GoCode {
  total_groups : nat;
  releaseGroups : list string;
  genericTerms : list string;
  qualityMarkers : list string;
  capacity : nat
}.

Definition generic_terms : list string :=
  ["group"; "release"; "rip"; "encode"; "repack";
   "real"; "readnfo"; "limited";
   "retail"; "subbed"; "dubbed"; "multi"; "unrated";
   "extended"; "theatrical"; "directors"; "cut"; "edition";
   "remux"; "hybrid"; "complete"; "collection"].

Definition quality_markers : list string :=
  ["cam"; "ts"; "tc"; "r5"; "dvdscr"; "screener";
   "dvdrip"; "bdrip"; "brrip"; "webrip"; "webdl";
   "hdtv"; "pdtv"; "dsr"; "tvrip"; "vodrip";
   "bluray"; "uhd"; "fhd"; "hd"; "sd";
   "1080p"; "720p"; "2160p"; "480p"; "4k"].

(** [generate_go_code(groups)]; [groups] is given as the sequence in which
    iterating the Python set yields its members. *)
Definition generate_go_code (groups : list string) : go_code :=
  let sorted_groups := sorted Str.lower groups in
  {| total_groups := length groups;
     releaseGroups := concat (go_lines sorted_groups);
     genericTerms := generic_terms;
     qualityMarkers := quality_markers;
     capacity := length groups + 50 |}.

(** [buildReleaseGroupMap] of the generated code: every member of the three
    slices becomes a key with value [true]. *)
Definition buildReleaseGroupMap (code : go_code) : gmap string bool :=
  foldl (fun groups groupList =>
           foldl (fun groups group => <[group := true]> groups) groups groupList)
        ∅ [releaseGroups code; genericTerms code; qualityMarkers code].

(** [main], from the lines of [archivedFiles] to the generated code. *)
Definition main (lines : list string) : go_code :=
  let groups := filter_tv_movie_groups lines in
  let valid_groups := filter_valid_groups groups in
  generate_go_code (elements valid_groups).

(** Two records of the dump whose groups differ in case only. *)
Definition sparks_records : list string :=
  ["Movie.Name.2024.1080p.BluRay-SPARKS"; "Show.S01E02.720p.HDTV-Sparks"].

(* ===================================================================== *)
(** ** update_blacklist.py *)

(** A release of the API response: a JSON object with string fields;
    [get release key] is [release.get(key, '')], the empty text when the
    key is missing. *)
Definition get (release : gmap string string) (key : string) : string :=
  default "" (release !! key).

Definition extract_groups_step (groups : gset string)
    (release : gmap string string) : gset string :=
  let team := Str.strip (get release "team") in
  if negb (String.eqb team "") && negb (String.eqb (Str.lower team) "none")
  then set_add (Str.lower team) groups
  else groups.

Definition extract_groups (releases : list (gmap string string)) : gset string :=
  foldl extract_groups_step ∅ releases.

Definition categorize_step (sets : gset string * gset string)
    (release : gmap string string) : gset string * gset string :=
  let team := Str.lower (Str.strip (get release "team")) in
  let cat := Str.upper (get release "cat") in
  if String.eqb team "" || String.eqb team "none" then sets
  else if Str.contains "TV" cat then (set_add team (fst sets), snd sets)
  else if Str.contains "MOVIE" cat || Str.contains "X264" cat || Str.contains "XVID" cat
  then (fst sets, set_add team (snd sets))
  else sets.

Definition categorize_groups (releases : list (gmap string string))
    : gset string * gset string :=
  foldl categorize_step (∅, ∅) releases.

(** The conditions of [categorize_groups] on one release: no usable team
    (empty once stripped, or the word none in any case), a TV category, a
    movie category. *)
Definition team_of (release : gmap string string) : string :=
  Str.strip (get release "team").

Definition no_team (release : gmap string string) : Prop :=
  team_of release = "" ∨ Str.lower (team_of release) = "none".

Definition tv_cat (release : gmap string string) : Prop :=
  Str.contains "TV" (Str.upper (get release "cat")) = true.

Definition movie_cat (release : gmap string string) : Prop :=
  Str.contains "MOVIE" (Str.upper (get release "cat")) = true
  ∨ Str.contains "X264" (Str.upper (get release "cat")) = true
  ∨ Str.contains "XVID" (Str.upper (get release "cat")) = true.

(** A release with a team and a category that is neither TV nor movie. *)
Definition games_release : gmap string string :=
  {[ "team" := "GRP"; "cat" := "GAMES" ]}.

(** [scrape_groups], over the pages that [fetch_releases] returned: the
    loop stops at the first empty page. *)
Fixpoint scrape_loop (pages : list (list (gmap string string)))
    (all : gset string * gset string) : gset string * gset string :=
  match pages with
  | [] => all
  | releases :: pages' =>
      match releases with
      | [] => all
      | _ =>
          let sets := categorize_groups releases in
          scrape_loop pages' (fst all ∪ fst sets, snd all ∪ snd sets)
      end
  end.

Definition scrape_groups (batch_count : nat)
    (pages : list (list (gmap string string))) : gset string * gset string :=
  scrape_loop (List.firstn batch_count pages) (∅, ∅).

(** [generate_go_arrays]: the two sorted sequences it prints; each set is
    given as the sequence in which iterating it yields its members. *)
Definition generate_go_arrays (tv_groups movie_groups : list string)
    : list string * list string :=
  (sorted (fun g => g) tv_groups, sorted (fun g => g) movie_groups).

(* ===================================================================== *)
(** ** Vocabulary of the specification *)

(** The newline character as a string. *)
Definition nl : string := String "010"%char EmptyString.

(** One or more ASCII letters or digits. *)
Definition alnum_run (tok : string) : Prop :=
  tok ≠ "" ∧ Str.all Chr.is_alnum tok = true.

(** A letter followed by one or more letters or digits. *)
Definition letter_led (tok : string) : Prop :=
  ∃ c body, tok = String c body ∧ Chr.is_alpha c = true ∧ alnum_run body.

(** The text after the last occurrence of [sep]. *)
Fixpoint after_last (sep : ascii) (s : string) : option string :=
  match s with
  | EmptyString => None
  | String c s' =>
      match after_last sep s' with
      | Some t => Some t
      | None => if Ascii.eqb c sep then Some s' else None
      end
  end.

(** [w] occurs in [s] / starts [s], letters compared without case. *)
Definition occurs_nocase (w s : string) : Prop :=
  ∃ pre mid post, s = pre +:+ mid +:+ post ∧ Str.lower mid = Str.lower w.

Definition starts_nocase (w s : string) : Prop :=
  ∃ mid post, s = mid +:+ post ∧ Str.lower mid = Str.lower w.

(** A season/episode marker: S, two digits, E, two digits, the two letters
    in either case. *)
Definition episode_marker (s : string) : Prop :=
  ∃ pre c1 d1 d2 c2 d3 d4 post,
    s = pre +:+ String c1 (String d1 (String d2 (String c2 (String d3 (String d4 post)))))
    ∧ Chr.to_lower c1 = "s"%char ∧ Chr.to_lower c2 = "e"%char
    ∧ Chr.is_digit d1 = true ∧ Chr.is_digit d2 = true
    ∧ Chr.is_digit d3 = true ∧ Chr.is_digit d4 = true.

Definition tv_indicator (s : string) : Prop :=
  episode_marker s ∨ occurs_nocase "Season" s ∨ occurs_nocase "Episode" s.

Definition movie_indicator (s : string) : Prop :=
  ∃ w, w ∈ movie_words ∧ occurs_nocase w s.

(** What the matcher computes, as a relation: [matches ic r st st'] when
    [r] matches the text between the positions [st] and [st']. *)
Inductive matches (ic : bool) : regex -> mstate -> mstate -> Prop :=
| m_eps st : matches ic Eps st st
| m_lit c x s n g :
    Chr.eqb_case ic c x = true ->
    matches ic (Lit c) (MState n (String x s) g) (MState (S n) s g)
| m_cls p x s n g :
    p x = true ->
    matches ic (Cls p) (MState n (String x s) g) (MState (S n) s g)
| m_seq r1 r2 st1 st2 st3 :
    matches ic r1 st1 st2 -> matches ic r2 st2 st3 ->
    matches ic (Seq r1 r2) st1 st3
| m_alt_l r1 r2 st st' : matches ic r1 st st' -> matches ic (Alt r1 r2) st st'
| m_alt_r r1 r2 st st' : matches ic r2 st st' -> matches ic (Alt r1 r2) st st'
| m_plus_one p x s n g :
    p x = true ->
    matches ic (Plus p) (MState n (String x s) g) (MState (S n) s g)
| m_plus_more p x s n g st' :
    p x = true ->
    matches ic (Plus p) (MState (S n) s g) st' ->
    matches ic (Plus p) (MState n (String x s) g) st'
| m_group r st st' :
    matches ic r st st' ->
    matches ic (Group r) st
      (MState (pos st') (rest st') (Some (Str.take (pos st' - pos st) (rest st))))
| m_bol st : pos st = 0 -> matches ic Bol st st
| m_eol st : at_end (rest st) = true -> matches ic Eol st st.

(* ===================================================================== *)
(** ** The printing loops of update_blacklist.py *)

(** [range(start, stop, step)] for a positive [step]: the loop runs at
    most [stop - start] times, which is the fuel given to it. *)
Fixpoint range_loop (fuel start stop step : nat) : list nat :=
  match fuel with
  | 0 => []
  | S fuel' =>
      if (start <? stop)%nat
      then start :: range_loop fuel' (start + step) stop step
      else []
  end.

Definition range (start stop step : nat) : list nat :=
  range_loop (stop - start) start stop step.

(** [xs[i:j]] for [i <= j]; a slice stops at the end of the list. *)
Definition slice (i j : nat) (xs : list string) : list string :=
  take (j - i) (drop i xs).

(** The lines that [generate_go_arrays] prints for one sorted sequence:
    [batch = xs[i:i+10]] for [i in range(0, len(xs), 10)]. *)
Definition print_batches (xs : list string) : list (list string) :=
  List.map (fun i => slice i (i + 10) xs) (range 0 (length xs) 10).

(* ===================================================================== *)
(** ** More vocabulary *)

(** Any character but [sep]. *)
Definition not_char (sep : ascii) (c : ascii) : bool := negb (Ascii.eqb c sep).

(** A text with no whitespace at either end. *)
Definition trimmed (s : string) : Prop :=
  (∀ c t, s = String c t -> Chr.is_space c = false)
  ∧ (∀ t c, s = t +:+ String c "" -> Chr.is_space c = false).

(** A lower-case letter followed by one or more lower-case letters or
    digits. *)
Definition lower_token (e : string) : Prop :=
  ∃ c body, e = String c body ∧ Chr.is_lower c = true ∧ body ≠ ""
    ∧ Str.all (fun x => Chr.is_lower x || Chr.is_digit x) body = true.

(** The pages that [scrape_groups] reads: the first [batch_count] ones, up
    to the first empty one. *)
Fixpoint pages_read (pages : list (list (gmap string string)))
    : list (list (gmap string string)) :=
  match pages with
  | [] => []
  | [] :: _ => []
  | releases :: pages' => releases :: pages_read pages'
  end.

(* ===================================================================== *)
(** ** Classification of a name of any characters *)

(** The dump is decoded as UTF-8, so a release name may hold any Unicode
    character.  The two classification patterns look at a character of the
    name in two ways only, both tables of the Unicode database that [re]
    consults: whether [\d] matches it (it is a decimal digit), and whether
    a literal of the pattern matches it under [re.IGNORECASE].  The
    classification is embedded once more over a text of characters of any
    type, with the two tables as parameters. *)
Module Uni.

Section Classification.

Variable uchar : Type.
Variable is_decimal : uchar -> bool.
Variable matches_nocase : ascii -> uchar -> bool.

(** The constructs of the two patterns: literals, [\d], sequence and
    alternation. *)
Inductive regex : Type :=
| Eps
| Lit (c : ascii)
| Decimal
| Seq (r1 r2 : regex)
| Alt (r1 r2 : regex).

(** The backtracking matcher, as [Re.run]: every text that can follow a
    match of [r] at the head of [s] is handed to [k], in the priority order
    of [re], until [k] accepts one. *)
Fixpoint run (r : regex) (s : list uchar)
    (k : list uchar -> option (list uchar)) : option (list uchar) :=
  match r with
  | Eps => k s
  | Lit c =>
      match s with
      | x :: s' => if matches_nocase c x then k s' else None
      | [] => None
      end
  | Decimal =>
      match s with
      | x :: s' => if is_decimal x then k s' else None
      | [] => None
      end
  | Seq r1 r2 => run r1 s (fun s' => run r2 s' k)
  | Alt r1 r2 =>
      match run r1 s k with
      | Some res => Some res
      | None => run r2 s k
      end
  end.

(** [pattern.search(s)]: the match at the leftmost offset that has one
    (given by the text that follows it). *)
Fixpoint search (r : regex) (s : list uchar) : option (list uchar) :=
  match run r s Some with
  | Some res => Some res
  | None =>
      match s with
      | [] => None
      | _ :: s' => search r s'
      end
  end.

Fixpoint word (w : string) : regex :=
  match w with
  | EmptyString => Eps
  | String c w' => Seq (Lit c) (word w')
  end.

Fixpoint alts (r : regex) (rs : list regex) : regex :=
  match rs with
  | [] => r
  | r' :: rs' => Alt r (alts r' rs')
  end.

Definition any_of (ws : list string) : regex :=
  match ws with
  | [] => Eps
  | w :: ws' => alts (word w) (List.map word ws')
  end.

(** [S\d{2}E\d{2}], then the two patterns of lines 44 and 45. *)
Definition episode_regex : regex :=
  Seq (Lit "S") (Seq Decimal (Seq Decimal (Seq (Lit "E") (Seq Decimal Decimal)))).

Definition tv_pattern : regex :=
  alts episode_regex [word "Season"; word "Episode"].

Definition movie_pattern : regex := any_of movie_words.

(** Lines 57 and 58, and the class they give. *)
Definition is_tv (name : list uchar) : bool :=
  bool_decide (is_Some (search tv_pattern name)).

Definition is_movie (name : list uchar) : bool :=
  bool_decide (is_Some (search movie_pattern name)) && negb (is_tv name).

Definition classify (name : list uchar) : classification :=
  if is_tv name then TV else if is_movie name then Movie else Unclassified.

(** The indicators of the specification, over the same two tables: a
    word occurs in a text when some part of the text matches it character
    by character, case ignored; a season/episode marker is S, two decimal
    digits, E, two decimal digits. *)
Definition word_matches (w : string) (mid : list uchar) : Prop :=
  Forall2 (fun c x => matches_nocase c x = true) (list_ascii_of_string w) mid.

Definition occurs (w : string) (s : list uchar) : Prop :=
  ∃ pre mid post, s = pre ++ mid ++ post ∧ word_matches w mid.

Definition episode_marker (s : list uchar) : Prop :=
  ∃ pre c1 d1 d2 c2 d3 d4 post,
    s = pre ++ c1 :: d1 :: d2 :: c2 :: d3 :: d4 :: post
    ∧ matches_nocase "S" c1 = true ∧ matches_nocase "E" c2 = true
    ∧ is_decimal d1 = true ∧ is_decimal d2 = true
    ∧ is_decimal d3 = true ∧ is_decimal d4 = true.

Definition tv_indicator (s : list uchar) : Prop :=
  episode_marker s ∨ occurs "Season" s ∨ occurs "Episode" s.

Definition movie_indicator (s : list uchar) : Prop :=
  ∃ w, w ∈ movie_words ∧ occurs w s.

(** What the matcher computes, as a relation between a text and what is
    left of it after a match at its head. *)
Inductive matches : regex -> list uchar -> list uchar -> Prop :=
| m_eps s : matches Eps s s
| m_lit c x s : matches_nocase c x = true -> matches (Lit c) (x :: s) s
| m_decimal x s : is_decimal x = true -> matches Decimal (x :: s) s
| m_seq r1 r2 s1 s2 s3 :
    matches r1 s1 s2 -> matches r2 s2 s3 -> matches (Seq r1 r2) s1 s3
| m_alt_l r1 r2 s s' : matches r1 s s' -> matches (Alt r1 r2) s s'
| m_alt_r r1 r2 s s' : matches r2 s s' -> matches (Alt r1 r2) s s'.

End Classification.

End Uni.

(* ===================================================================== *)
(** ** Facts about characters and strings *)

Ltac by_cases_on_char c :=
  destruct c as [[] [] [] [] [] [] [] []]; vm_compute; intuition congruence.

Section StringFacts.

Lemma sapp_cons c s t : String c s +:+ t = String c (s +:+ t).
Proof. reflexivity. Qed.

Lemma sapp_nil_r s : s +:+ "" = s.
Proof. induction s as [|c s IH]; [reflexivity|]. rewrite sapp_cons, IH. reflexivity. Qed.

Lemma sapp_assoc s t u : (s +:+ t) +:+ u = s +:+ t +:+ u.
Proof.
  induction s as [|c s IH]; [reflexivity|].
  rewrite !sapp_cons, IH. reflexivity.
Qed.

Lemma take_app s t : Str.take (String.length s) (s +:+ t) = s.
Proof.
  induction s as [|c s IH]; [destruct t; reflexivity|].
  rewrite sapp_cons. simpl. rewrite IH. reflexivity.
Qed.

Lemma all_app p s t : Str.all p (s +:+ t) = Str.all p s && Str.all p t.
Proof.
  induction s as [|c s IH]; [reflexivity|].
  rewrite sapp_cons. simpl. rewrite IH. apply andb_assoc.
Qed.

Lemma lower_cons c s : Str.lower (String c s) = String (Chr.to_lower c) (Str.lower s).
Proof. reflexivity. Qed.

Lemma to_lower_idemp c : Chr.to_lower (Chr.to_lower c) = Chr.to_lower c.
Proof. by_cases_on_char c. Qed.

Lemma lower_idemp s : Str.lower (Str.lower s) = Str.lower s.
Proof.
  unfold Str.lower. induction s as [|c s IH]; [reflexivity|].
  simpl. rewrite to_lower_idemp, IH. reflexivity.
Qed.

End StringFacts.

(* ===================================================================== *)
(** ** The matcher computes [matches] *)

Section Matcher.

Variable ic : bool.

Lemma plus_loop_sound p g s n k res :
  plus_loop p g s n k = Some res ->
  ∃ st', matches ic (Plus p) (MState n s g) st' ∧ k st' = Some res.
Proof.
  revert n. induction s as [|x s IH]; intros n; simpl; [discriminate|].
  destruct (p x) eqn:Hx; [|discriminate].
  destruct (plus_loop p g s (S n) k) as [r|] eqn:Hmore.
  - intros [= <-]. destruct (IH _ Hmore) as (st' & Hm & Hk).
    exists st'. split; [apply m_plus_more; assumption | assumption].
  - intros Hk. exists (MState (S n) s g). split; [apply m_plus_one|]; assumption.
Qed.

Lemma run_sound r : ∀ st k res,
  run ic r st k = Some res ->
  ∃ st', matches ic r st st' ∧ k st' = Some res.
Proof.
  induction r as [|c|p|r1 IH1 r2 IH2|r1 IH1 r2 IH2|p|r1 IH1| |];
    intros [n s g] k res; simpl.
  - intros Hk. eexists; split; [constructor | exact Hk].
  - destruct s as [|x s]; [discriminate|].
    destruct (Chr.eqb_case ic c x) eqn:Hc; [|discriminate].
    intros Hk. eexists; split; [apply m_lit; exact Hc | exact Hk].
  - destruct s as [|x s]; [discriminate|].
    destruct (p x) eqn:Hx; [|discriminate].
    intros Hk. eexists; split; [apply m_cls; exact Hx | exact Hk].
  - intros H. apply IH1 in H as (st2 & Hm1 & H).
    apply IH2 in H as (st3 & Hm2 & Hk).
    exists st3. split; [eapply m_seq; eassumption | exact Hk].
  - destruct (run ic r1 _ k) as [r|] eqn:H1.
    + intros [= <-]. apply IH1 in H1 as (st' & Hm & Hk).
      exists st'. split; [apply m_alt_l; exact Hm | exact Hk].
    + intros H2. apply IH2 in H2 as (st' & Hm & Hk).
      exists st'. split; [apply m_alt_r; exact Hm | exact Hk].
  - apply plus_loop_sound.
  - intros H. apply IH1 in H as (st' & Hm & Hk).
    eexists. split; [apply m_group; exact Hm | exact Hk].
  - destruct (n =? 0)%nat eqn:Hn; [|discriminate].
    intros Hk. eexists; split; [apply m_bol; simpl | exact Hk].
    apply Nat.eqb_eq. exact Hn.
  - destruct (at_end s) eqn:He; [|discriminate].
    intros Hk. eexists; split; [apply m_eol; exact He | exact Hk].
Qed.

Lemma run_complete r st st' :
  matches ic r st st' ->
  ∀ k, is_Some (k st') -> is_Some (run ic r st k).
Proof.
  induction 1 as [st|c x s n g Hc|p x s n g Hx|r1 r2 st1 st2 st3 _ IH1 _ IH2
                  |r1 r2 st st' _ IH|r1 r2 st st' _ IH|p x s n g Hx
                  |p x s n g st' Hx _ IH|r st st' _ IH|st Hp|st He];
    intros k Hk; simpl.
  - exact Hk.
  - rewrite Hc. exact Hk.
  - rewrite Hx. exact Hk.
  - apply IH1, IH2, Hk.
  - destruct (IH k Hk) as [res ->]. eexists; reflexivity.
  - destruct (run ic r1 st k); [eexists; reflexivity | apply IH, Hk].
  - rewrite Hx. destruct (plus_loop p g s (S n) k); [eexists; reflexivity | exact Hk].
  - rewrite Hx. destruct (IH k Hk) as [res Hres]. simpl in Hres. rewrite Hres.
    eexists; reflexivity.
  - apply IH. exact Hk.
  - rewrite Hp. exact Hk.
  - rewrite He. exact Hk.
Qed.

Lemma search_from_sound r : ∀ s n res,
  search_from ic r n s = Some res ->
  ∃ pre suf, s = pre +:+ suf
    ∧ matches ic r (MState (n + String.length pre) suf None) res.
Proof.
  induction s as [|c s IH]; intros n res; simpl.
  - destruct (run ic r _ Some) as [m|] eqn:Hrun; [|discriminate].
    intros [= <-]. apply run_sound in Hrun as (st' & Hm & [= ->]).
    exists "", "". split; [reflexivity|]. simpl. rewrite Nat.add_0_r. exact Hm.
  - destruct (run ic r _ Some) as [m|] eqn:Hrun.
    + intros [= <-]. apply run_sound in Hrun as (st' & Hm & [= ->]).
      exists "", (String c s). split; [reflexivity|].
      simpl. rewrite Nat.add_0_r. exact Hm.
    + intros H. apply IH in H as (pre & suf & -> & Hm).
      exists (String c pre), suf. split; [reflexivity|].
      simpl. rewrite <- Nat.add_succ_comm. exact Hm.
Qed.

Lemma search_from_complete r : ∀ pre suf n st',
  matches ic r (MState (n + String.length pre) suf None) st' ->
  is_Some (search_from ic r n (pre +:+ suf)).
Proof.
  induction pre as [|c pre IH]; intros suf n st' Hm.
  - simpl in Hm. rewrite Nat.add_0_r in Hm.
    assert (is_Some (run ic r (MState n suf None) Some)) as [m Hrun]
      by (eapply run_complete; [exact Hm | eexists; reflexivity]).
    change ("" +:+ suf) with suf.
    destruct suf; simpl; rewrite Hrun; eexists; reflexivity.
  - rewrite sapp_cons. simpl.
    destruct (run ic r _ Some); [eexists; reflexivity|].
    eapply IH. simpl in Hm. rewrite <- Nat.add_succ_comm in Hm. exact Hm.
Qed.

(** [search] finds a match exactly when some position has one. *)
Lemma search_is_Some r s :
  is_Some (search ic r s) ↔
  ∃ pre suf st', s = pre +:+ suf
    ∧ matches ic r (MState (String.length pre) suf None) st'.
Proof.
  unfold search. split.
  - intros [res H]. apply search_from_sound in H as (pre & suf & -> & Hm).
    exists pre, suf, res. split; [reflexivity | exact Hm].
  - intros (pre & suf & st' & -> & Hm).
    eapply search_from_complete. simpl. exact Hm.
Qed.

Lemma match_is_Some r s :
  is_Some (match_ ic r s) ↔ ∃ st', matches ic r (MState 0 s None) st'.
Proof.
  unfold match_. split.
  - intros [res H]. apply run_sound in H as (st' & Hm & _). exists st'. exact Hm.
  - intros (st' & Hm). eapply run_complete; [exact Hm | eexists; reflexivity].
Qed.

End Matcher.

(* ===================================================================== *)
(** ** What each construct of a pattern matches *)

Section Constructs.

Variable ic : bool.

Lemma matches_plus_inv p st st' :
  matches ic (Plus p) st st' ->
  ∃ tok, rest st = tok +:+ rest st' ∧ tok ≠ "" ∧ Str.all p tok = true
         ∧ pos st' = pos st + String.length tok ∧ group1 st' = group1 st.
Proof.
  remember (Plus p) as r eqn:Hr. intros Hm. revert Hr.
  induction Hm as [| | | | | |q x s n g Hx|q x s n g st' Hx _ IH| | |];
    intros Hr; try discriminate; injection Hr as ->.
  - exists (String x ""). simpl. rewrite Hx.
    repeat split; [discriminate | lia].
  - destruct (IH eq_refl) as (tok & Hrest & _ & Hall & Hpos & Hg).
    exists (String x tok). simpl in *. rewrite Hx, Hall, Hrest, Hpos, Hg.
    repeat split; [discriminate | lia].
Qed.

Lemma matches_plus_intro p tok : ∀ r n g,
  tok ≠ "" -> Str.all p tok = true ->
  matches ic (Plus p) (MState n (tok +:+ r) g) (MState (n + String.length tok) r g).
Proof.
  induction tok as [|x tok IH]; intros r n g Hne Hall; [congruence|].
  simpl in Hall. apply andb_true_iff in Hall as [Hx Hall].
  rewrite sapp_cons. simpl. rewrite <- Nat.add_succ_comm.
  destruct tok as [|y tok].
  - simpl. rewrite Nat.add_0_r. apply m_plus_one. exact Hx.
  - apply m_plus_more; [exact Hx|]. apply IH; [discriminate | exact Hall].
Qed.

Lemma matches_lit_inv c st st' :
  matches ic (Lit c) st st' ->
  ∃ x, rest st = String x (rest st') ∧ Chr.eqb_case ic c x = true
       ∧ pos st' = S (pos st) ∧ group1 st' = group1 st.
Proof. intros H. inv H. exists x. simpl. auto. Qed.

Lemma matches_cls_inv p st st' :
  matches ic (Cls p) st st' ->
  ∃ x, rest st = String x (rest st') ∧ p x = true
       ∧ pos st' = S (pos st) ∧ group1 st' = group1 st.
Proof. intros H. inv H. exists x. simpl. auto. Qed.

Lemma matches_eps_inv st st' : matches ic Eps st st' -> st' = st.
Proof. intros H. inv H. reflexivity. Qed.

Lemma matches_seq_inv r1 r2 st st' :
  matches ic (Seq r1 r2) st st' ->
  ∃ st2, matches ic r1 st st2 ∧ matches ic r2 st2 st'.
Proof. intros H. inv H. eauto. Qed.

Lemma matches_alt_inv r1 r2 st st' :
  matches ic (Alt r1 r2) st st' -> matches ic r1 st st' ∨ matches ic r2 st st'.
Proof. intros H. inv H; auto. Qed.

Lemma matches_group_inv r st st' :
  matches ic (Group r) st st' ->
  ∃ st1, matches ic r st st1
    ∧ st' = MState (pos st1) (rest st1) (Some (Str.take (pos st1 - pos st) (rest st))).
Proof. intros H. inv H. eauto. Qed.

Lemma matches_bol_inv st st' : matches ic Bol st st' -> st' = st ∧ pos st = 0.
Proof. intros H. inv H. auto. Qed.

Lemma matches_eol_inv st st' :
  matches ic Eol st st' -> st' = st ∧ at_end (rest st) = true.
Proof. intros H. inv H. auto. Qed.

Lemma matches_alts r rs st st' :
  matches ic (alts r rs) st st' ↔
  matches ic r st st' ∨ ∃ r', r' ∈ rs ∧ matches ic r' st st'.
Proof.
  revert r. induction rs as [|r1 rs IH]; intros r; simpl.
  - split; [auto|]. intros [H|(r' & Hin & _)]; [exact H|]. inv Hin.
  - split.
    + intros H. apply matches_alt_inv in H as [H|H]; [auto|]. right.
      apply IH in H as [H|(r' & Hin & H)].
      * exists r1. split; [left | exact H].
      * exists r'. split; [right; exact Hin | exact H].
    + intros [H|(r' & Hin & H)]; [apply m_alt_l; exact H|].
      apply m_alt_r, IH. inv Hin; [auto|]. right. exists r'. auto.
Qed.

End Constructs.

Lemma eqb_case_exact c x : Chr.eqb_case false c x = true ↔ x = c.
Proof. unfold Chr.eqb_case. rewrite Ascii.eqb_eq. split; congruence. Qed.

Lemma eqb_case_nocase c x :
  Chr.eqb_case true c x = true ↔ Chr.to_lower x = Chr.to_lower c.
Proof. unfold Chr.eqb_case. rewrite Ascii.eqb_eq. split; congruence. Qed.

(** A literal word under [re.IGNORECASE] matches the texts that are equal
    to it once both are lower-cased. *)
Lemma matches_word w : ∀ st st',
  matches true (word w) st st' ↔
  ∃ mid, rest st = mid +:+ rest st' ∧ Str.lower mid = Str.lower w
         ∧ pos st' = pos st + String.length mid ∧ group1 st' = group1 st.
Proof.
  induction w as [|c w IH]; intros st st'; simpl.
  - split.
    + intros H. apply matches_eps_inv in H as ->. exists "". repeat split. simpl. lia.
    + intros (mid & Hrest & Hlow & Hpos & Hg).
      destruct mid; [|discriminate]. destruct st, st'; simpl in *.
      rewrite Nat.add_0_r in Hpos. subst. constructor.
  - split.
    + intros H. apply matches_seq_inv in H as (st2 & H1 & H2).
      apply matches_lit_inv in H1 as (x & Hrest & Hx & Hpos & Hg).
      apply IH in H2 as (mid & Hrest' & Hlow & Hpos' & Hg').
      apply eqb_case_nocase in Hx.
      exists (String x mid). rewrite sapp_cons, <- Hrest', !lower_cons, Hx, Hlow.
      simpl. repeat split; [exact Hrest | lia | congruence].
    + intros (mid & Hrest & Hlow & Hpos & Hg).
      destruct mid as [|x mid]; [discriminate|].
      rewrite !lower_cons in Hlow. injection Hlow as Hx Hlow.
      destruct st as [n s g], st' as [n' s' g']; simpl in *. subst.
      eapply m_seq; [apply m_lit, eqb_case_nocase; exact Hx|].
      apply IH. exists mid. simpl. repeat split; [exact Hlow | lia].
Qed.

(* ===================================================================== *)
(** ** Group extraction *)

Lemma alnum_not_hyphen c : Chr.is_alnum c = true -> Ascii.eqb c "-" = false.
Proof. by_cases_on_char c. Qed.

Lemma alpha_alnum c : Chr.is_alpha c = true -> Chr.is_alnum c = true.
Proof. unfold Chr.is_alnum. intros ->. reflexivity. Qed.

Lemma at_end_cases r : at_end r = true ↔ r = "" ∨ r = nl.
Proof.
  unfold nl. destruct r as [|c [|d r]]; simpl.
  - intuition.
  - rewrite Ascii.eqb_eq. split; [intros ->; auto | intros [H|H]; congruence].
  - split; [discriminate | intros [H|H]; discriminate].
Qed.

Lemma letter_led_alnum_run tok : letter_led tok -> alnum_run tok.
Proof.
  intros (c & body & -> & Hc & _ & Hall). split; [discriminate|].
  simpl. rewrite (alpha_alnum _ Hc), Hall. reflexivity.
Qed.

Lemma group_pattern_inv n suf res :
  matches false group_pattern (MState n suf None) res ->
  ∃ tok r, suf = String "-" (tok +:+ r) ∧ alnum_run tok
           ∧ at_end r = true ∧ group1 res = Some tok.
Proof.
  unfold group_pattern. intros H.
  apply matches_seq_inv in H as (st1 & Hlit & H).
  apply matches_seq_inv in H as (st2 & Hgrp & Heol).
  apply matches_lit_inv in Hlit as (x & Hrest & Hx & Hpos & _).
  apply eqb_case_exact in Hx as ->.
  apply matches_group_inv in Hgrp as (st3 & Hplus & ->).
  apply matches_plus_inv in Hplus as (tok & Hrest3 & Hne & Hall & Hpos3 & _).
  apply matches_eol_inv in Heol as [-> Hend].
  simpl in *. exists tok, (rest st3).
  rewrite Hrest, Hrest3. repeat split; try assumption.
  replace (pos st3 - pos st1) with (String.length tok) by lia.
  rewrite take_app. reflexivity.
Qed.

Lemma group_pattern_intro n tok r :
  alnum_run tok -> at_end r = true ->
  ∃ res, matches false group_pattern (MState n (String "-" (tok +:+ r)) None) res.
Proof.
  intros [Hne Hall] Hend. unfold group_pattern. eexists.
  eapply m_seq; [apply m_lit; reflexivity|].
  eapply m_seq; [apply m_group, matches_plus_intro; eassumption|].
  apply m_eol. exact Hend.
Qed.

(** A match of the pattern, wherever [search] finds it, captures a run of
    letters and digits that follows a hyphen and ends the text (up to one
    final newline). *)
Lemma extract_group_sound s tok :
  extract_group s = Some tok ->
  ∃ pre r, s = pre +:+ String "-" (tok +:+ r) ∧ alnum_run tok ∧ at_end r = true.
Proof.
  unfold extract_group, search.
  destruct (search_from false group_pattern 0 s) as [m|] eqn:Hs; [|discriminate].
  intros Hg. apply search_from_sound in Hs as (pre & suf & -> & Hm).
  apply group_pattern_inv in Hm as (tok' & r & -> & Hrun & Hend & Hg').
  assert (tok' = tok) as -> by congruence.
  exists pre, r. auto.
Qed.

Lemma after_last_absent sep s :
  Str.all (fun c => negb (Ascii.eqb c sep)) s = true -> after_last sep s = None.
Proof.
  induction s as [|c s IH]; simpl; [reflexivity|].
  intros [Hc Hs]%andb_true_iff. rewrite (IH Hs).
  apply negb_true_iff in Hc. rewrite Hc. reflexivity.
Qed.

Lemma after_last_app sep a b :
  Str.all (fun c => negb (Ascii.eqb c sep)) b = true ->
  after_last sep (a +:+ String sep b) = Some b.
Proof.
  intros Hb. induction a as [|c a IH].
  - change ("" +:+ String sep b) with (String sep b). simpl.
    rewrite (after_last_absent _ _ Hb), Ascii.eqb_refl. reflexivity.
  - rewrite sapp_cons. simpl. rewrite IH. reflexivity.
Qed.

Lemma tail_no_hyphen tok r :
  Str.all Chr.is_alnum tok = true -> at_end r = true ->
  Str.all (fun c => negb (Ascii.eqb c "-")) (tok +:+ r) = true.
Proof.
  intros Hall Hend. rewrite all_app. apply andb_true_iff. split.
  - induction tok as [|c tok IH]; [reflexivity|]. simpl in *.
    apply andb_true_iff in Hall as [Hc Hall].
    rewrite (alnum_not_hyphen _ Hc), (IH Hall). reflexivity.
  - apply at_end_cases in Hend as [->| ->]; reflexivity.
Qed.

Lemma token_before_end tok : ∀ tok' r r',
  Str.all Chr.is_alnum tok = true -> Str.all Chr.is_alnum tok' = true ->
  at_end r = true -> at_end r' = true ->
  tok +:+ r = tok' +:+ r' -> tok = tok'.
Proof.
  assert (Hclash : ∀ c t r r', Chr.is_alnum c = true -> at_end r = true ->
            r = String c t +:+ r' -> False).
  { intros c t r r' Hc Hend Heq. rewrite sapp_cons in Heq.
    apply at_end_cases in Hend as [->| ->]; [discriminate|].
    injection Heq as <- _. discriminate Hc. }
  induction tok as [|c tok IH]; intros [|c' tok'] r r' Hall Hall' Hend Hend' Heq.
  - reflexivity.
  - exfalso. simpl in Hall'. apply andb_true_iff in Hall' as [Hc _].
    eapply Hclash; [exact Hc | exact Hend | exact Heq].
  - exfalso. simpl in Hall. apply andb_true_iff in Hall as [Hc _].
    eapply Hclash; [exact Hc | exact Hend' | symmetry; exact Heq].
  - rewrite !sapp_cons in Heq. injection Heq as <- Heq.
    simpl in Hall, Hall'.
    apply andb_true_iff in Hall as [_ Hall]. apply andb_true_iff in Hall' as [_ Hall'].
    f_equal. apply (IH tok' r r'); assumption.
Qed.

Lemma extract_group_complete pre tok r :
  alnum_run tok -> at_end r = true ->
  extract_group (pre +:+ String "-" (tok +:+ r)) = Some tok.
Proof.
  intros Hrun Hend.
  destruct (group_pattern_intro (0 + String.length pre) tok r Hrun Hend) as [res Hm].
  apply search_from_complete in Hm as [m Hs].
  destruct (extract_group (pre +:+ String "-" (tok +:+ r))) as [tok'|] eqn:He.
  - apply extract_group_sound in He as (pre' & r' & Heq & [_ Hall'] & Hend').
    destruct Hrun as [_ Hall].
    apply (f_equal (after_last "-")) in Heq.
    rewrite !after_last_app in Heq by (apply tail_no_hyphen; assumption).
    injection Heq as Heq. f_equal. symmetry.
    apply (token_before_end tok tok' r r'); assumption.
  - exfalso. unfold extract_group, search in He. rewrite Hs in He.
    apply search_from_sound in Hs as (pre' & suf & _ & Hm').
    apply group_pattern_inv in Hm' as (t & _ & _ & _ & _ & Hg). congruence.
Qed.

(** Exactly the texts of that form have a group. *)
Lemma extract_group_spec s tok :
  extract_group s = Some tok ↔
  ∃ pre r, s = pre +:+ "-" +:+ tok +:+ r ∧ alnum_run tok ∧ (r = "" ∨ r = nl).
Proof.
  split.
  - intros (pre & r & -> & Hrun & Hend)%extract_group_sound.
    exists pre, r. rewrite <- at_end_cases. auto.
  - intros (pre & r & -> & Hrun & Hend). apply at_end_cases in Hend.
    apply (extract_group_complete pre tok r Hrun Hend).
Qed.

Lemma app_hyphen pre t : pre +:+ "-" +:+ t = pre +:+ String "-" t.
Proof. reflexivity. Qed.

(** C1.  On every text of the form [pre-TOKEN], where TOKEN is a letter
    followed by one or more letters or digits and ends the text,
    [extract_group] returns exactly TOKEN; and TOKEN is the text after the
    last hyphen of the whole input, never an earlier segment. *)
Theorem extract_group_returns_token (pre tok : string) :
  letter_led tok ->
  extract_group (pre +:+ "-" +:+ tok) = Some tok
  ∧ after_last "-" (pre +:+ "-" +:+ tok) = Some tok.
Proof.
  intros Hrun%letter_led_alnum_run. rewrite app_hyphen. split.
  - rewrite <- (sapp_nil_r tok) at 1.
    apply extract_group_complete; [exact Hrun | reflexivity].
  - apply after_last_app. rewrite <- (sapp_nil_r tok).
    apply tail_no_hyphen; [apply Hrun | reflexivity].
Qed.

(** C1 at a release name with an earlier hyphen. *)
Lemma extract_group_returns_token_witness :
  letter_led "SPARKS"
  ∧ extract_group ("Movie.Name-2024.1080p.BluRay" +:+ "-" +:+ "SPARKS") = Some "SPARKS"
  ∧ after_last "-" ("Movie.Name-2024.1080p.BluRay" +:+ "-" +:+ "SPARKS") = Some "SPARKS".
Proof.
  assert (H : letter_led "SPARKS").
  { exists "S"%char, "PARKS". repeat split. discriminate. }
  split; [exact H|].
  exact (extract_group_returns_token "Movie.Name-2024.1080p.BluRay" "SPARKS" H).
Defined.

(** The last character of a text. *)
Lemma last_char_eq a c b d : a +:+ String c "" = b +:+ String d "" -> c = d.
Proof.
  revert b. induction a as [|x a IH]; intros [|y b] H.
  - injection H as ->. reflexivity.
  - rewrite sapp_cons in H. injection H as _ H. destruct b; discriminate H.
  - rewrite sapp_cons in H. injection H as _ H. destruct a; discriminate H.
  - rewrite !sapp_cons in H. injection H as _ H. eapply IH, H.
Qed.

Lemma alnum_run_last tok :
  alnum_run tok -> ∃ t c, tok = t +:+ String c "" ∧ Chr.is_alnum c = true.
Proof.
  intros [Hne Hall]. induction tok as [|x tok IH]; [congruence|].
  simpl in Hall. apply andb_true_iff in Hall as [Hx Hall].
  destruct tok as [|y tok].
  - exists "", x. auto.
  - destruct IH as (t & c & Heq & Hc); [discriminate | exact Hall |].
    exists (String x t), c. rewrite sapp_cons, <- Heq. auto.
Qed.

Lemma contains_hyphen pre t : Str.contains "-" (pre +:+ String "-" t) = true.
Proof.
  induction pre as [|c pre IH]; [reflexivity|].
  rewrite sapp_cons. simpl. rewrite IH. apply orb_true_r.
Qed.

Lemma all_digit_alnum tok : Str.all Chr.is_digit tok = true -> Str.all Chr.is_alnum tok = true.
Proof.
  induction tok as [|c tok IH]; [reflexivity|]. simpl.
  intros [Hc Hall]%andb_true_iff. rewrite (IH Hall).
  unfold Chr.is_alnum. rewrite Hc, orb_true_r. reflexivity.
Qed.

(** The claim of C3 fails on a digit-only trailing segment: the pattern's
    set holds the digits, so the segment is returned as a candidate. *)
Lemma extract_group_digit_segment :
  Str.all Chr.is_digit "2024" = true
  ∧ extract_group "Movie.Name-2024" = Some "2024".
Proof. split; vm_compute; reflexivity. Qed.

(** C3 (amended).  [extract_group] returns no candidate exactly on the
    texts that do not end in a hyphen followed by one or more letters or
    digits (a single final newline apart, which [$] skips); there is none
    for a text that ends in a space or has no hyphen.  A digit-only segment
    after the last hyphen is a candidate like any other. *)
Theorem extract_group_absent :
  (∀ s, extract_group s = None ↔
        ¬ ∃ pre tok r, s = pre +:+ "-" +:+ tok +:+ r ∧ alnum_run tok ∧ (r = "" ∨ r = nl))
  ∧ (∀ s, extract_group (s +:+ " ") = None)
  ∧ (∀ s, Str.contains "-" s = false -> extract_group s = None)
  ∧ (∀ pre tok, tok ≠ "" -> Str.all Chr.is_digit tok = true ->
        extract_group (pre +:+ "-" +:+ tok) = Some tok).
Proof.
  assert (Hiff : ∀ s, extract_group s = None ↔
        ¬ ∃ pre tok r, s = pre +:+ "-" +:+ tok +:+ r ∧ alnum_run tok ∧ (r = "" ∨ r = nl)).
  { intros s. split.
    - intros Hnone (pre & tok & r & Heq).
      assert (extract_group s = Some tok) as Hsome
        by (apply extract_group_spec; exists pre, r; exact Heq).
      congruence.
    - intros Hno. destruct (extract_group s) as [tok|] eqn:He; [|reflexivity].
      exfalso. apply Hno. apply extract_group_spec in He as (pre & r & Heq).
      exists pre, tok, r. exact Heq. }
  split; [exact Hiff|]. split; [|split].
  - intros s. apply Hiff. intros (pre & tok & r & Heq & Hrun & Hr).
    apply alnum_run_last in Hrun as (t & c & -> & Hc).
    destruct Hr as [->| ->].
    + rewrite sapp_nil_r, <- !sapp_assoc in Heq.
      apply last_char_eq in Heq as <-. discriminate Hc.
    + unfold nl in Heq. rewrite <- !sapp_assoc in Heq.
      apply last_char_eq in Heq. discriminate Heq.
  - intros s Hs. apply Hiff. intros (pre & tok & r & -> & _).
    rewrite app_hyphen, contains_hyphen in Hs. discriminate Hs.
  - intros pre tok Hne Hall. rewrite app_hyphen, <- (sapp_nil_r tok) at 1.
    apply extract_group_complete; [|reflexivity].
    split; [exact Hne | apply all_digit_alnum, Hall].
Qed.

(* ===================================================================== *)
(** ** Shape validation *)

Lemma valid_pattern_inv s res :
  matches false valid_pattern (MState 0 s None) res ->
  ∃ c body r, s = String c (body +:+ r) ∧ Chr.is_alpha c = true
              ∧ alnum_run body ∧ at_end r = true.
Proof.
  unfold valid_pattern. intros H.
  apply matches_seq_inv in H as (st1 & Hbol & H).
  apply matches_bol_inv in Hbol as [-> _].
  apply matches_seq_inv in H as (st2 & Hcls & H).
  apply matches_seq_inv in H as (st3 & Hplus & Heol).
  apply matches_cls_inv in Hcls as (c & Hrest & Hc & _).
  apply matches_plus_inv in Hplus as (body & Hrest2 & Hne & Hall & _).
  apply matches_eol_inv in Heol as [-> Hend].
  simpl in Hrest. exists c, body, (rest st3).
  rewrite Hrest, Hrest2. repeat split; assumption.
Qed.

Lemma valid_pattern_intro c body r :
  Chr.is_alpha c = true -> alnum_run body -> at_end r = true ->
  ∃ res, matches false valid_pattern (MState 0 (String c (body +:+ r)) None) res.
Proof.
  intros Hc [Hne Hall] Hend. unfold valid_pattern. eexists.
  eapply m_seq; [apply m_bol; reflexivity|].
  eapply m_seq; [apply m_cls; exact Hc|].
  eapply m_seq; [apply matches_plus_intro; eassumption|].
  apply m_eol. exact Hend.
Qed.

Lemma is_valid_shape_spec tok :
  is_valid_shape tok = true ↔
  ∃ c body r, tok = String c (body +:+ r) ∧ Chr.is_alpha c = true
              ∧ alnum_run body ∧ at_end r = true.
Proof.
  unfold is_valid_shape. rewrite bool_decide_eq_true, match_is_Some. split.
  - intros [res Hm]. eapply valid_pattern_inv, Hm.
  - intros (c & body & r & -> & Hc & Hrun & Hend).
    apply valid_pattern_intro; assumption.
Qed.

Lemma letter_led_all_alnum tok : letter_led tok -> Str.all Chr.is_alnum tok = true.
Proof. intros H. apply letter_led_alnum_run, H. Qed.

Lemma app_single_eq a : ∀ t c b d,
  a +:+ String c b = t +:+ String d "" ->
  (b = "" ∧ c = d ∧ a = t) ∨ (∃ b', b = b' +:+ String d "" ∧ t = a +:+ String c b').
Proof.
  induction a as [|x a IH]; intros t c b d H.
  - change ("" +:+ String c b) with (String c b) in H.
    destruct t as [|y t].
    + injection H as -> ->. left. auto.
    + rewrite sapp_cons in H. injection H as -> ->. right. exists t. auto.
  - rewrite sapp_cons in H. destruct t as [|y t].
    + injection H as _ H. destruct a; discriminate H.
    + rewrite sapp_cons in H. injection H as -> H.
      apply IH in H as [(-> & -> & ->)|(b' & -> & ->)].
      * left. auto.
      * right. exists b'. auto.
Qed.


(** What [valid_pattern.match] computes on any text, and where it agrees
    with the comment above it (a letter, then one or more letters or
    digits): on digit-only tokens, on one-character tokens, on tokens with
    a character that is neither a letter nor a digit other than a final
    newline, and on every token of letters and digits only, which are the
    tokens that [extract_group] returns. *)
Theorem is_valid_shape_accepts :
  (∀ tok, is_valid_shape tok = true ↔
          letter_led tok ∨ ∃ t, tok = t +:+ nl ∧ letter_led t)
  ∧ (∀ tok, Str.all Chr.is_digit tok = true -> is_valid_shape tok = false)
  ∧ (∀ c, is_valid_shape (String c "") = false)
  ∧ (∀ a c b, Chr.is_alnum c = false -> (c ≠ "010"%char ∨ b ≠ "") ->
        is_valid_shape (a +:+ String c b) = false)
  ∧ (∀ tok, Str.all Chr.is_alnum tok = true ->
        (is_valid_shape tok = true ↔ letter_led tok))
  ∧ (∀ s tok, extract_group s = Some tok ->
        (is_valid_shape tok = true ↔ letter_led tok)).
Proof.
  assert (Hiff : ∀ tok, is_valid_shape tok = true ↔
            letter_led tok ∨ ∃ t, tok = t +:+ nl ∧ letter_led t).
  { intros tok. rewrite is_valid_shape_spec. split.
    - intros (c & body & r & -> & Hc & Hrun & [->| ->]%at_end_cases).
      + left. exists c, body. rewrite sapp_nil_r. auto.
      + right. exists (String c body). split; [reflexivity|].
        exists c, body. auto.
    - intros [(c & body & -> & Hc & Hrun)|(t & -> & c & body & -> & Hc & Hrun)].
      + exists c, body, "". rewrite sapp_nil_r. auto.
      + exists c, body, nl. auto. }
  assert (Halnum : ∀ tok, Str.all Chr.is_alnum tok = true ->
            (is_valid_shape tok = true ↔ letter_led tok)).
  { intros tok Hall. rewrite Hiff. split; [|auto].
    intros [H|(t & -> & _)]; [exact H|].
    rewrite all_app in Hall. apply andb_true_iff in Hall as [_ Hall].
    discriminate Hall. }
  assert (Hreject : ∀ tok, ¬ (letter_led tok ∨ ∃ t, tok = t +:+ nl ∧ letter_led t) ->
            is_valid_shape tok = false).
  { intros tok Hno. apply not_true_is_false. rewrite Hiff. exact Hno. }
  split; [exact Hiff|]. split; [|split; [|split; [|split]]].
  - intros tok Hdig. apply Hreject.
    intros [(c & body & -> & Hc & _)|(t & -> & c & body & -> & Hc & _)];
      rewrite ?sapp_cons in Hdig; simpl in Hdig;
      apply andb_true_iff in Hdig as [Hd _]; revert Hc Hd; by_cases_on_char c.
  - intros c. apply Hreject.
    intros [(x & body & Heq & _ & Hne & _)|(t & Heq & x & body & -> & _ & Hne & _)].
    + injection Heq as _ <-. congruence.
    + rewrite sapp_cons in Heq. injection Heq as _ Heq. destruct body; [congruence | discriminate Heq].
  - intros a c b Hc Hcb. apply Hreject. intros [Hled|(t & Heq & Hled)].
    + apply letter_led_all_alnum in Hled. rewrite all_app in Hled. simpl in Hled.
      rewrite Hc, andb_false_r in Hled. discriminate Hled.
    + apply letter_led_all_alnum in Hled. unfold nl in Heq.
      apply app_single_eq in Heq as [(-> & -> & _)|(b' & -> & ->)].
      * destruct Hcb; congruence.
      * rewrite all_app in Hled. simpl in Hled.
        rewrite Hc, andb_false_r in Hled. discriminate Hled.
  - exact Halnum.
  - intros s tok (pre & r & _ & [_ Hall] & _)%extract_group_sound.
    apply Halnum, Hall.
Qed.

(* ===================================================================== *)
(** ** Classification *)

Lemma occurs_nocase_matches w s :
  occurs_nocase w s ↔
  ∃ pre suf st', s = pre +:+ suf
    ∧ matches true (word w) (MState (String.length pre) suf None) st'.
Proof.
  split.
  - intros (pre & mid & post & -> & Hlow).
    exists pre, (mid +:+ post), (MState (String.length pre + String.length mid) post None).
    split; [reflexivity|]. apply matches_word. exists mid. auto.
  - intros (pre & suf & st' & -> & Hm).
    apply matches_word in Hm as (mid & Hrest & Hlow & _). simpl in Hrest.
    exists pre, mid, (rest st'). rewrite Hrest. auto.
Qed.

(** A search for an alternation of literal words, letters without case. *)
Lemma search_words w ws s :
  is_Some (search true (alts (word w) (List.map word ws)) s) ↔
  ∃ w', w' ∈ w :: ws ∧ occurs_nocase w' s.
Proof.
  rewrite search_is_Some. split.
  - intros (pre & suf & st' & Heq & Hm).
    apply matches_alts in Hm as [Hm|(r' & Hin & Hm)].
    + exists w. split; [left|]. apply occurs_nocase_matches. eauto.
    + apply list_elem_of_In, in_map_iff in Hin as (w' & <- & Hin).
      exists w'. split; [right; apply list_elem_of_In, Hin|].
      apply occurs_nocase_matches. eauto.
  - intros (w' & Hin & (pre & suf & st' & Heq & Hm)%occurs_nocase_matches).
    exists pre, suf, st'. split; [exact Heq|]. apply matches_alts.
    apply elem_of_cons in Hin as [->|Hin]; [left; exact Hm|].
    right. exists (word w'). split; [|exact Hm].
    apply list_elem_of_In, in_map, list_elem_of_In, Hin.
Qed.

Lemma episode_marker_matches s :
  episode_marker s ↔
  ∃ pre suf st', s = pre +:+ suf
    ∧ matches true episode_regex (MState (String.length pre) suf None) st'.
Proof.
  unfold episode_regex. split.
  - intros (pre & c1 & d1 & d2 & c2 & d3 & d4 & post & -> & H1 & H2 & Hd1 & Hd2 & Hd3 & Hd4).
    eexists pre, _, _. split; [reflexivity|].
    eapply m_seq; [apply m_lit, eqb_case_nocase; exact H1|].
    eapply m_seq; [apply m_cls; exact Hd1|].
    eapply m_seq; [apply m_cls; exact Hd2|].
    eapply m_seq; [apply m_lit, eqb_case_nocase; exact H2|].
    eapply m_seq; [apply m_cls; exact Hd3|].
    apply m_cls. exact Hd4.
  - intros (pre & suf & st' & -> & Hm).
    apply matches_seq_inv in Hm as (st1 & Hc1 & Hm).
    apply matches_seq_inv in Hm as (st2 & Hd1 & Hm).
    apply matches_seq_inv in Hm as (st3 & Hd2 & Hm).
    apply matches_seq_inv in Hm as (st4 & Hc2 & Hm).
    apply matches_seq_inv in Hm as (st5 & Hd3 & Hd4).
    apply matches_lit_inv in Hc1 as (c1 & R1 & Hc1%eqb_case_nocase & _).
    apply matches_cls_inv in Hd1 as (d1 & R2 & Hd1 & _).
    apply matches_cls_inv in Hd2 as (d2 & R3 & Hd2 & _).
    apply matches_lit_inv in Hc2 as (c2 & R4 & Hc2%eqb_case_nocase & _).
    apply matches_cls_inv in Hd3 as (d3 & R5 & Hd3 & _).
    apply matches_cls_inv in Hd4 as (d4 & R6 & Hd4 & _).
    simpl in R1. exists pre, c1, d1, d2, c2, d3, d4, (rest st').
    rewrite R1, R2, R3, R4, R5, R6. repeat split; assumption.
Qed.

Lemma is_tv_spec s : is_tv s = true ↔ tv_indicator s.
Proof.
  unfold is_tv, tv_indicator, tv_pattern.
  rewrite bool_decide_eq_true, search_is_Some, episode_marker_matches,
    !occurs_nocase_matches.
  split.
  - intros (pre & suf & st' & Heq & Hm).
    apply matches_alts in Hm as [Hm|(r' & Hin & Hm)]; [left; eauto|].
    right. apply elem_of_cons in Hin as [->|Hin]; [left; eauto|].
    apply list_elem_of_singleton in Hin as ->. right; eauto.
  - intros [(pre & suf & st' & Heq & Hm)|[(pre & suf & st' & Heq & Hm)|(pre & suf & st' & Heq & Hm)]];
      exists pre, suf, st'; (split; [exact Heq|]); apply matches_alts.
    + left. exact Hm.
    + right. exists (word "Season"). split; [left | exact Hm].
    + right. exists (word "Episode"). split; [right; left | exact Hm].
Qed.

Lemma movie_search_spec s :
  is_Some (search true movie_pattern s) ↔ movie_indicator s.
Proof. apply search_words. Qed.

Lemma is_movie_spec s : is_movie s = true ↔ movie_indicator s ∧ ¬ tv_indicator s.
Proof.
  unfold is_movie.
  rewrite andb_true_iff, bool_decide_eq_true, movie_search_spec, negb_true_iff,
    <- is_tv_spec.
  destruct (is_tv s); split; intros [Hm Ht]; (split; [exact Hm|]); congruence.
Qed.

(** The class of a release name of characters below 256, by the
    indicators over [Chr.is_digit] and [Chr.to_lower]: TV exactly when a TV
    indicator matches, Movie exactly when a movie indicator matches and no
    TV indicator does, Unclassified exactly when neither matches. *)
Theorem classify_tv_precedence (s : string) :
  (classify s = TV ↔ tv_indicator s)
  ∧ (classify s = Movie ↔ movie_indicator s ∧ ¬ tv_indicator s)
  ∧ (classify s = Unclassified ↔ ¬ tv_indicator s ∧ ¬ movie_indicator s).
Proof.
  pose proof (is_tv_spec s) as Htv. pose proof (is_movie_spec s) as Hmv.
  unfold classify.
  destruct (is_tv s) eqn:Et; [|destruct (is_movie s) eqn:Em].
  - assert (tv_indicator s) by (apply Htv; reflexivity).
    repeat split; try discriminate; tauto.
  - assert (¬ tv_indicator s) by (rewrite <- Htv; discriminate).
    assert (movie_indicator s) by (apply Hmv; reflexivity).
    repeat split; try discriminate; tauto.
  - assert (¬ tv_indicator s) by (rewrite <- Htv; discriminate).
    assert (¬ (movie_indicator s ∧ ¬ tv_indicator s)) by (rewrite <- Hmv; discriminate).
    repeat split; try discriminate; tauto.
Qed.

(* ===================================================================== *)
(** ** Exclusion and validation *)

Lemma starts_nocase_matches w s :
  starts_nocase w s ↔ ∃ st', matches true (word w) (MState 0 s None) st'.
Proof.
  split.
  - intros (mid & post & -> & Hlow).
    exists (MState (String.length mid) post None).
    apply matches_word. exists mid. auto.
  - intros (st' & Hm).
    apply matches_word in Hm as (mid & Hrest & Hlow & _). simpl in Hrest.
    exists mid, (rest st'). auto.
Qed.

Lemma is_excluded_spec tok :
  is_excluded tok = true ↔ ∃ w, w ∈ exclude_words ∧ starts_nocase w tok.
Proof.
  unfold is_excluded, exclude_pattern.
  rewrite bool_decide_eq_true, match_is_Some. split.
  - intros (st' & Hm).
    apply matches_seq_inv in Hm as (st1 & [-> _]%matches_bol_inv & Hm).
    apply matches_group_inv in Hm as (st2 & Hm & _).
    apply matches_alts in Hm as [Hm|(r' & Hin & Hm)].
    + exists "TEST". split; [left|]. apply starts_nocase_matches. eauto.
    + apply list_elem_of_In, in_map_iff in Hin as (w & <- & Hin).
      exists w. split; [right; apply list_elem_of_In, Hin|].
      apply starts_nocase_matches. eauto.
  - intros (w & Hin & (st' & Hm)%starts_nocase_matches).
    eexists. eapply m_seq; [apply m_bol; reflexivity|].
    apply m_group, matches_alts.
    apply elem_of_cons in Hin as [->|Hin]; [left; exact Hm|].
    right. exists (word w). split; [|exact Hm].
    apply list_elem_of_In, in_map, list_elem_of_In, Hin.
Qed.

Lemma filter_valid_loop l : ∀ (valid : gset string) g,
  g ∈ foldl (fun valid group => if validate group then set_add group valid else valid)
        valid l
  ↔ g ∈ valid ∨ (g ∈ l ∧ validate g = true).
Proof.
  induction l as [|x l IH]; intros valid g; simpl.
  - rewrite elem_of_nil. tauto.
  - rewrite IH, elem_of_cons. unfold set_add.
    destruct (validate x) eqn:Hx.
    + rewrite elem_of_union, elem_of_singleton. split.
      * intros [[->|H]|[H1 H2]]; auto.
      * intros [H|[[->|H1] H2]]; auto.
    + split.
      * intros [H|[H1 H2]]; auto.
      * intros [H|[[->|H1] H2]]; auto. congruence.
Qed.

Lemma filter_valid_groups_spec groups g :
  g ∈ filter_valid_groups groups ↔ g ∈ groups ∧ validate g = true.
Proof.
  unfold filter_valid_groups. rewrite filter_valid_loop, elem_of_elements.
  rewrite elem_of_empty. tauto.
Qed.

(** C6.  [is_excluded] holds of a token exactly when the token begins,
    letters compared without case, with one of TEST, SAMPLE, PROOF, RARBG,
    ETRG, YTS and YIFY; a token with no such prefix is not excluded; and a
    candidate survives [filter_valid_groups] exactly when it has the valid
    shape and is not excluded. *)
Theorem is_excluded_prefix :
  exclude_words = ["TEST"; "SAMPLE"; "PROOF"; "RARBG"; "ETRG"; "YTS"; "YIFY"]
  ∧ (∀ tok, is_excluded tok = true ↔ ∃ w, w ∈ exclude_words ∧ starts_nocase w tok)
  ∧ (∀ tok, (∀ w, w ∈ exclude_words -> ¬ starts_nocase w tok) ->
        is_excluded tok = false)
  ∧ (∀ tok, validate tok = true ↔ is_valid_shape tok = true ∧ is_excluded tok = false)
  ∧ (∀ groups tok, tok ∈ filter_valid_groups groups ↔
        tok ∈ groups ∧ is_valid_shape tok = true ∧ is_excluded tok = false).
Proof.
  assert (Hval : ∀ tok, validate tok = true ↔
            is_valid_shape tok = true ∧ is_excluded tok = false).
  { intros tok. unfold validate. rewrite andb_true_iff, negb_true_iff. reflexivity. }
  split; [reflexivity|]. split; [exact is_excluded_spec|]. split; [|split].
  - intros tok Hno. apply not_true_is_false. rewrite is_excluded_spec.
    intros (w & Hin & Hst). exact (Hno w Hin Hst).
  - exact Hval.
  - intros groups tok. rewrite filter_valid_groups_spec, Hval. reflexivity.
Qed.

(* ===================================================================== *)
(** ** The mining loop *)

Lemma classified_iff name :
  is_tv name || is_movie name = true ↔ classify name ≠ Unclassified.
Proof.
  unfold classify. destruct (is_tv name), (is_movie name); simpl;
    split; congruence.
Qed.

Lemma filter_step_spec groups line g :
  g ∈ filter_step groups line ↔
  g ∈ groups ∨ (classify (release_name line) ≠ Unclassified
                ∧ extract_group (release_name line) = Some g).
Proof.
  unfold filter_step. rewrite <- classified_iff.
  destruct (is_tv _ || is_movie _).
  - destruct (extract_group _) as [t|]; unfold set_add.
    + rewrite elem_of_union, elem_of_singleton. split.
      * intros [->|H]; auto.
      * intros [H|[_ [= ->]]]; auto.
    + split; [auto | intros [H|[_ H]]; [exact H | discriminate H]].
  - split; [auto | intros [H|[H _]]; [exact H | discriminate H]].
Qed.

Lemma filter_loop_spec lines : ∀ groups g,
  g ∈ foldl filter_step groups lines ↔
  g ∈ groups ∨ ∃ line, line ∈ lines
      ∧ classify (release_name line) ≠ Unclassified
      ∧ extract_group (release_name line) = Some g.
Proof.
  induction lines as [|x lines IH]; intros groups g; simpl.
  - split; [auto | intros [H|(line & Hin & _)]; [exact H | inv Hin]].
  - rewrite IH, filter_step_spec. split.
    + intros [[H|H]|(line & Hin & H)]; [auto| |].
      * right. exists x. split; [left | exact H].
      * right. exists line. split; [right; exact Hin | exact H].
    + intros [H|(line & Hin & H)]; [auto|].
      apply elem_of_cons in Hin as [->|Hin]; [auto|].
      right. exists line. auto.
Qed.

Lemma extract_release_groups_spec lines g :
  g ∈ extract_release_groups lines ↔
  ∃ line, line ∈ lines ∧ extract_group (release_name line) = Some g.
Proof.
  unfold extract_release_groups.
  assert (H : ∀ l (groups : gset string),
    g ∈ foldl (fun groups line =>
                 match extract_group (release_name line) with
                 | Some g => set_add g groups
                 | None => groups
                 end) groups l
    ↔ g ∈ groups ∨ ∃ line, line ∈ l ∧ extract_group (release_name line) = Some g).
  { unfold set_add. induction l as [|x l IH]; intros groups; simpl.
    - split; [auto | intros [H|(line & Hin & _)]; [exact H | inv Hin]].
    - rewrite IH. split.
      + intros [H|(line & Hin & H)].
        * destruct (extract_group (release_name x)) as [t|] eqn:He; [|auto].
          apply elem_of_union in H as [->%elem_of_singleton|H]; [|auto].
          right. exists x. split; [left | exact He].
        * right. exists line. split; [right; exact Hin | exact H].
      + intros [H|(line & [->|Hin]%elem_of_cons & H)].
        * left. destruct (extract_group _); [apply elem_of_union; right|]; exact H.
        * left. rewrite H. apply elem_of_union. left. apply elem_of_singleton. reflexivity.
        * right. exists line. auto. }
  rewrite H, elem_of_empty. tauto.
Qed.

Lemma filter_tv_movie_groups_spec lines g :
  g ∈ filter_tv_movie_groups lines ↔
  ∃ line, line ∈ lines ∧ classify (release_name line) ≠ Unclassified
          ∧ extract_group (release_name line) = Some g.
Proof.
  unfold filter_tv_movie_groups. rewrite filter_loop_spec, elem_of_empty. tauto.
Qed.

(* ===================================================================== *)
(** ** Sorting and the generated code *)

Section Sorting.

Variable key : string -> string.

Lemma leb_le a b : String.leb a b = true ↔ String.le a b.
Proof. unfold String.le. rewrite Is_true_true. reflexivity. Qed.

Lemma not_leb_le a b : String.leb a b = false -> String.le b a.
Proof.
  intros H. destruct (String.le_total a b) as [Hab|Hba]; [|exact Hba].
  apply leb_le in Hab. congruence.
Qed.

Lemma insert_by_perm x l : insert_by key x l ≡ₚ x :: l.
Proof.
  induction l as [|y l IH]; simpl; [reflexivity|].
  destruct (String.leb (key y) (key x)); [|reflexivity].
  rewrite IH. apply Permutation_swap.
Qed.

Lemma sort_loop_perm xs : ∀ acc,
  foldl (fun acc x => insert_by key x acc) acc xs ≡ₚ xs ++ acc.
Proof.
  induction xs as [|x xs IH]; intros acc; simpl; [reflexivity|].
  rewrite IH, insert_by_perm. symmetry. apply Permutation_middle.
Qed.

Lemma sorted_perm xs : sorted key xs ≡ₚ xs.
Proof. unfold sorted. rewrite sort_loop_perm, app_nil_r. reflexivity. Qed.

Lemma insert_by_hd a x l :
  (key_le key) a x -> HdRel (key_le key) a l -> HdRel (key_le key) a (insert_by key x l).
Proof.
  intros Hax Hal. destruct l as [|y l]; simpl; [constructor; exact Hax|].
  destruct (String.leb (key y) (key x)); constructor; [|exact Hax].
  inv Hal. assumption.
Qed.

Lemma insert_by_sorted x l :
  Sorted (key_le key) l -> Sorted (key_le key) (insert_by key x l).
Proof.
  induction l as [|y l IH]; intros Hs; simpl.
  - repeat constructor.
  - inv Hs. destruct (String.leb (key y) (key x)) eqn:Hyx.
    + constructor; [apply IH; assumption|].
      apply insert_by_hd; [apply leb_le, Hyx | assumption].
    + constructor; [constructor; assumption|].
      constructor. apply not_leb_le, Hyx.
Qed.

Lemma sort_loop_sorted xs : ∀ acc,
  Sorted (key_le key) acc -> Sorted (key_le key) (foldl (fun acc x => insert_by key x acc) acc xs).
Proof.
  induction xs as [|x xs IH]; intros acc Hacc; simpl; [exact Hacc|].
  apply IH, insert_by_sorted, Hacc.
Qed.

Lemma sorted_sorted xs : Sorted (key_le key) (sorted key xs).
Proof. apply sort_loop_sorted. constructor. Qed.

Lemma sorted_keys xs : Sorted String.le (key <$> sorted key xs).
Proof.
  pose proof (sorted_sorted xs) as Hs.
  induction Hs as [|a l _ IH Hhd]; simpl; constructor; [exact IH|].
  destruct Hhd; constructor. assumption.
Qed.

(** The keys come out in one order, whatever the order of the input. *)
Lemma sorted_keys_unique xs ys :
  xs ≡ₚ ys -> key <$> sorted key xs = key <$> sorted key ys.
Proof.
  intros Hp. apply (Sorted_unique String.le); try apply sorted_keys.
  rewrite !sorted_perm, Hp. reflexivity.
Qed.

End Sorting.

Lemma sorted_plain_unique xs ys :
  xs ≡ₚ ys -> sorted (fun g => g) xs = sorted (fun g => g) ys.
Proof.
  intros Hp. pose proof (sorted_keys_unique (fun g => g) xs ys Hp) as H.
  rewrite !list_fmap_id in H. exact H.
Qed.

Lemma line_loop_concat l : ∀ st,
  concat (fst (foldl line_step st l)) ++ snd (foldl line_step st l)
  = concat (fst st) ++ snd st ++ (Str.lower <$> l).
Proof.
  induction l as [|g l IH]; intros [ls cur]; simpl.
  - rewrite app_nil_r. reflexivity.
  - rewrite IH. unfold line_step. simpl.
    destruct (length (cur ++ [Str.lower g]) =? 8)%nat; simpl.
    + rewrite concat_app. simpl. rewrite app_nil_r, <- !app_assoc. reflexivity.
    + rewrite <- !app_assoc. reflexivity.
Qed.

Lemma concat_go_lines l : concat (go_lines l) = Str.lower <$> l.
Proof.
  unfold go_lines. pose proof (line_loop_concat l ([], [])) as H. simpl in H.
  destruct (snd (foldl line_step ([], []) l)) as [|e cur].
  - rewrite app_nil_r in H. exact H.
  - rewrite concat_app. simpl. rewrite app_nil_r. exact H.
Qed.

Lemma releaseGroups_spec groups :
  releaseGroups (generate_go_code groups) = Str.lower <$> sorted Str.lower groups.
Proof. apply concat_go_lines. Qed.

Lemma elem_of_releaseGroups groups k :
  k ∈ releaseGroups (generate_go_code groups) ↔ ∃ g, g ∈ groups ∧ k = Str.lower g.
Proof.
  rewrite releaseGroups_spec, list_elem_of_fmap. split.
  - intros (g & -> & Hin). exists g. rewrite sorted_perm in Hin. auto.
  - intros (g & Hin & ->). exists g. rewrite sorted_perm. auto.
Qed.

Lemma insert_loop_lookup l : ∀ (m : gmap string bool) k,
  foldl (fun groups group => <[group := true]> groups) m l !! k
  = if decide (k ∈ l) then Some true else m !! k.
Proof.
  induction l as [|g l IH]; intros m k; simpl.
  - destruct (decide (k ∈ [])) as [H|_]; [inv H | reflexivity].
  - rewrite IH. destruct (decide (k ∈ l)) as [Hin|Hnin].
    + rewrite decide_True by (right; exact Hin). reflexivity.
    + destruct (decide (k = g)) as [->|Hne].
      * rewrite lookup_insert_eq, decide_True by left. reflexivity.
      * rewrite lookup_insert_ne by congruence.
        rewrite decide_False; [reflexivity|].
        intros [->|H]%elem_of_cons; [congruence | exact (Hnin H)].
Qed.

Lemma buildReleaseGroupMap_lookup code k :
  buildReleaseGroupMap code !! k
  = if decide (k ∈ releaseGroups code ∨ k ∈ genericTerms code ∨ k ∈ qualityMarkers code)
    then Some true else None.
Proof.
  unfold buildReleaseGroupMap. simpl. rewrite !insert_loop_lookup, lookup_empty.
  repeat destruct (decide (k ∈ _)); 
    destruct (decide (_ ∨ _)) as [H|H]; try reflexivity; exfalso; tauto.
Qed.

Lemma static_terms_lower k :
  k ∈ generic_terms ∨ k ∈ quality_markers -> Str.lower k = k.
Proof.
  intros [H|H]; revert H; unfold generic_terms, quality_markers;
    rewrite !elem_of_cons, !elem_of_nil; intros H;
    repeat (destruct H as [->|H]; [reflexivity|]); destruct H.
Qed.

Lemma main_releaseGroups lines e :
  e ∈ releaseGroups (main lines) ↔
  ∃ g, g ∈ filter_valid_groups (filter_tv_movie_groups lines) ∧ e = Str.lower g.
Proof.
  unfold main. rewrite elem_of_releaseGroups.
  split; intros (g & Hin & ->); exists g; (split; [|reflexivity]);
    apply elem_of_elements, Hin.
Qed.

Lemma map_keys_lower groups k :
  is_Some (buildReleaseGroupMap (generate_go_code groups) !! k) -> Str.lower k = k.
Proof.
  rewrite buildReleaseGroupMap_lookup.
  destruct (decide _) as [[H|H]|_]; [| |intros [? [=]]]; intros _.
  - apply elem_of_releaseGroups in H as (g & _ & ->). apply lower_idemp.
  - apply static_terms_lower, H.
Qed.

(** C7.  The map that the generated code builds is the union of the mined
    groups, lower-cased, with the two static lists: a key is present exactly
    when it is the lower-cased form of a mined group or a member of one of
    the static lists; every value is [true]; the members of the static lists
    are keys whatever the mined groups are; every key is lower-cased. *)
Theorem generated_map_is_union (groups : list string) (k : string) :
  (buildReleaseGroupMap (generate_go_code groups) !! k = Some true ↔
     (∃ g, g ∈ groups ∧ k = Str.lower g) ∨ k ∈ generic_terms ∨ k ∈ quality_markers)
  ∧ buildReleaseGroupMap (generate_go_code groups) !! k ≠ Some false
  ∧ (k ∈ generic_terms ∨ k ∈ quality_markers ->
       ∀ groups', buildReleaseGroupMap (generate_go_code groups') !! k = Some true)
  ∧ (is_Some (buildReleaseGroupMap (generate_go_code groups) !! k) -> Str.lower k = k)
  ∧ (∀ lines, buildReleaseGroupMap (main lines) !! k = Some true ↔
       (∃ g, g ∈ filter_valid_groups (filter_tv_movie_groups lines) ∧ k = Str.lower g)
       ∨ k ∈ generic_terms ∨ k ∈ quality_markers).
Proof.
  assert (Hiff : ∀ l, buildReleaseGroupMap (generate_go_code l) !! k = Some true ↔
     (∃ g, g ∈ l ∧ k = Str.lower g) ∨ k ∈ generic_terms ∨ k ∈ quality_markers).
  { intros l. rewrite buildReleaseGroupMap_lookup, <- elem_of_releaseGroups.
    destruct (decide _) as [H|H]; [tauto|].
    split; [discriminate | intros H'; exfalso; apply H, H']. }
  split; [apply Hiff|]. split; [|split; [|split]].
  - rewrite buildReleaseGroupMap_lookup. destruct (decide _); discriminate.
  - intros Hk groups'. apply Hiff. right. exact Hk.
  - apply map_keys_lower.
  - intros lines. unfold main. rewrite Hiff.
    split; (intros [(g & Hin & ->)|H]; [left; exists g|right; exact H]);
      (split; [|reflexivity]); apply elem_of_elements, Hin.
Qed.

(** The claim of C2 fails on two records whose groups differ in case only:
    both spellings are members of the mined set, the lower-cased form is
    not, and the slice written holds the same entry twice. *)
Lemma mixed_case_emitted_twice :
  ("SPARKS" ∈ filter_valid_groups (filter_tv_movie_groups sparks_records))
  ∧ ("Sparks" ∈ filter_valid_groups (filter_tv_movie_groups sparks_records))
  ∧ ("sparks" ∉ filter_valid_groups (filter_tv_movie_groups sparks_records))
  ∧ releaseGroups (main sparks_records) = ["sparks"; "sparks"].
Proof.
  split; [|split; [|split]].
  - apply (bool_decide_unpack _). vm_compute. exact I.
  - apply (bool_decide_unpack _). vm_compute. exact I.
  - intros Hin. apply (bool_decide_pack _) in Hin. vm_compute in Hin. exact Hin.
  - vm_compute. reflexivity.
Qed.

(** C2 (amended).  The map that the generated code builds never holds two
    spellings of one group: a token enters the mined set as the text that
    the pattern captured and is lower-cased when it is written, so every
    entry written and every key of the map is lower-cased, each mined token
    is present under its lower-cased form, no two keys differ in case only,
    and the map has one entry per key. *)
Theorem mixed_case_one_key (lines : list string) :
  (∀ g, g ∈ filter_valid_groups (filter_tv_movie_groups lines) ->
       ∃ line, line ∈ lines ∧ extract_group (release_name line) = Some g)
  ∧ (∀ e, e ∈ releaseGroups (main lines) -> Str.lower e = e)
  ∧ (∀ g, g ∈ filter_valid_groups (filter_tv_movie_groups lines) ->
       buildReleaseGroupMap (main lines) !! Str.lower g = Some true)
  ∧ (∀ k, is_Some (buildReleaseGroupMap (main lines) !! k) -> Str.lower k = k)
  ∧ (∀ k k', is_Some (buildReleaseGroupMap (main lines) !! k) ->
       is_Some (buildReleaseGroupMap (main lines) !! k') ->
       Str.lower k = Str.lower k' -> k = k')
  ∧ NoDup (map_to_list (buildReleaseGroupMap (main lines))).*1.
Proof.
  split; [|split; [|split; [|split; [|split]]]].
  - intros g [Hg _]%filter_valid_groups_spec.
    apply filter_tv_movie_groups_spec in Hg as (line & Hin & _ & He). eauto.
  - intros e (g & _ & ->)%main_releaseGroups. apply lower_idemp.
  - intros g Hg. rewrite buildReleaseGroupMap_lookup.
    rewrite decide_True; [reflexivity|]. left.
    apply main_releaseGroups. exists g. auto.
  - intros k. apply map_keys_lower.
  - intros k k' Hk Hk' Heq.
    rewrite <- (map_keys_lower _ _ Hk), <- (map_keys_lower _ _ Hk'). exact Heq.
  - apply NoDup_fst_map_to_list.
Qed.

(** C9.  Extraction is attempted on classified records only: a line whose
    release name is Unclassified leaves the set as it was, whatever its
    suffix; so a group is mined exactly when some line classified TV or
    Movie yields it, and every entry that [main] writes comes from such a
    line. *)
Theorem unclassified_lines_add_nothing :
  (∀ groups line, classify (release_name line) = Unclassified ->
       filter_step groups line = groups)
  ∧ (∀ lines g, g ∈ filter_tv_movie_groups lines ↔
       ∃ line, line ∈ lines ∧ classify (release_name line) ≠ Unclassified
               ∧ extract_group (release_name line) = Some g)
  ∧ (∀ lines, (∀ line, line ∈ lines -> classify (release_name line) = Unclassified) ->
       filter_tv_movie_groups lines = ∅ ∧ releaseGroups (main lines) = [])
  ∧ (∀ lines e, e ∈ releaseGroups (main lines) ->
       ∃ line g, line ∈ lines ∧ classify (release_name line) ≠ Unclassified
                 ∧ extract_group (release_name line) = Some g ∧ e = Str.lower g).
Proof.
  split; [|split; [exact filter_tv_movie_groups_spec|split]].
  - intros groups line Hc. unfold filter_step.
    destruct (is_tv _ || is_movie _) eqn:Hb; [|reflexivity].
    apply classified_iff in Hb. congruence.
  - intros lines Hall.
    assert (Hempty : filter_tv_movie_groups lines = ∅).
    { apply set_eq. intros g. rewrite filter_tv_movie_groups_spec, elem_of_empty.
      split; [|tauto]. intros (line & Hin & Hc & _). apply Hc, Hall, Hin. }
    split; [exact Hempty|].
    destruct (releaseGroups (main lines)) as [|e l] eqn:He; [reflexivity|].
    assert (Hin : e ∈ releaseGroups (main lines)) by (rewrite He; left).
    apply main_releaseGroups in Hin as (g & Hg & _).
    apply filter_valid_groups_spec in Hg as [Hg _].
    rewrite Hempty in Hg. apply elem_of_empty in Hg. destruct Hg.
  - intros lines e (g & Hg & ->)%main_releaseGroups.
    apply filter_valid_groups_spec in Hg as [Hg _].
    apply filter_tv_movie_groups_spec in Hg as (line & Hin & Hc & He).
    exists line, g. auto.
Qed.

(* ===================================================================== *)
(** ** The API pipeline *)

Lemma to_lower_n c : Chr.to_lower c = "n"%char ↔ c = "n"%char ∨ c = "N"%char.
Proof. by_cases_on_char c. Qed.

Lemma to_lower_o c : Chr.to_lower c = "o"%char ↔ c = "o"%char ∨ c = "O"%char.
Proof. by_cases_on_char c. Qed.

Lemma to_lower_e c : Chr.to_lower c = "e"%char ↔ c = "e"%char ∨ c = "E"%char.
Proof. by_cases_on_char c. Qed.

(** Equality with the word none, letters in any case. *)
Lemma lower_none t :
  Str.lower t = "none" ↔
  ∃ c1 c2 c3 c4, t = String c1 (String c2 (String c3 (String c4 "")))
    ∧ (c1 = "n" ∨ c1 = "N")%char ∧ (c2 = "o" ∨ c2 = "O")%char
    ∧ (c3 = "n" ∨ c3 = "N")%char ∧ (c4 = "e" ∨ c4 = "E")%char.
Proof.
  split.
  - destruct t as [|c1 [|c2 [|c3 [|c4 [|c5 t]]]]]; try discriminate.
    rewrite !lower_cons. intros [= H1 H2 H3 H4].
    exists c1, c2, c3, c4.
    rewrite <- to_lower_n, <- to_lower_o, <- to_lower_n, <- to_lower_e. auto.
  - intros (c1 & c2 & c3 & c4 & -> & H1 & H2 & H3 & H4).
    apply to_lower_n in H1, H3. apply to_lower_o in H2. apply to_lower_e in H4.
    rewrite !lower_cons, H1, H2, H3, H4. reflexivity.
Qed.

Lemma lower_empty t : Str.lower t = "" ↔ t = "".
Proof. destruct t; [tauto|]. rewrite lower_cons. split; discriminate. Qed.

Lemma skip_test release :
  String.eqb (Str.lower (team_of release)) ""
  || String.eqb (Str.lower (team_of release)) "none" = true ↔ no_team release.
Proof.
  unfold no_team. rewrite orb_true_iff, !String.eqb_eq, lower_empty. reflexivity.
Qed.

Lemma keep_test release :
  negb (String.eqb (team_of release) "")
  && negb (String.eqb (Str.lower (team_of release)) "none") = true ↔ ¬ no_team release.
Proof.
  unfold no_team.
  rewrite andb_true_iff, !negb_true_iff, !String.eqb_neq. tauto.
Qed.

Lemma categorize_step_cases sets release :
  categorize_step sets release =
    if String.eqb (Str.lower (team_of release)) ""
       || String.eqb (Str.lower (team_of release)) "none" then sets
    else if Str.contains "TV" (Str.upper (get release "cat"))
    then (set_add (Str.lower (team_of release)) (fst sets), snd sets)
    else if Str.contains "MOVIE" (Str.upper (get release "cat"))
            || Str.contains "X264" (Str.upper (get release "cat"))
            || Str.contains "XVID" (Str.upper (get release "cat"))
    then (fst sets, set_add (Str.lower (team_of release)) (snd sets))
    else sets.
Proof. reflexivity. Qed.

Lemma movie_test release :
  Str.contains "MOVIE" (Str.upper (get release "cat"))
  || Str.contains "X264" (Str.upper (get release "cat"))
  || Str.contains "XVID" (Str.upper (get release "cat")) = true ↔ movie_cat release.
Proof. unfold movie_cat. rewrite !orb_true_iff. tauto. Qed.

Lemma categorize_step_tv sets release g :
  g ∈ fst (categorize_step sets release) ↔
  g ∈ fst sets
  ∨ (¬ no_team release ∧ tv_cat release ∧ g = Str.lower (team_of release)).
Proof.
  rewrite categorize_step_cases. pose proof (skip_test release) as Hskip.
  unfold tv_cat, set_add.
  destruct (_ || _).
  - split; [auto | intros [H|[H _]]; [exact H | tauto]].
  - assert (¬ no_team release) as Hteam by (rewrite <- Hskip; discriminate).
    destruct (Str.contains "TV" _); simpl.
    + rewrite elem_of_union, elem_of_singleton. tauto.
    + destruct (_ || _); simpl; (split; [auto | intros [H|(_ & H & _)]; [exact H | discriminate H]]).
Qed.

Lemma categorize_step_movie sets release g :
  g ∈ snd (categorize_step sets release) ↔
  g ∈ snd sets
  ∨ (¬ no_team release ∧ ¬ tv_cat release ∧ movie_cat release
     ∧ g = Str.lower (team_of release)).
Proof.
  rewrite categorize_step_cases. pose proof (skip_test release) as Hskip.
  pose proof (movie_test release) as Hmovie.
  unfold tv_cat, set_add.
  destruct (String.eqb _ _ || String.eqb _ _).
  - split; [auto | intros [H|[H _]]; [exact H | tauto]].
  - assert (¬ no_team release) as Hteam by (rewrite <- Hskip; discriminate).
    destruct (Str.contains "TV" _); simpl.
    + split; [auto | intros [H|(_ & H & _)]; [exact H | congruence]].
    + destruct (_ || _); simpl.
      * rewrite elem_of_union, elem_of_singleton.
        assert (movie_cat release) as Hmc by (apply Hmovie; reflexivity).
        split; [intros [->|H]; auto 6 | intros [H|(_ & _ & _ & ->)]; auto].
      * split; [auto | intros [H|(_ & _ & H & _)]; [exact H|]].
        apply Hmovie in H. discriminate H.
Qed.

Lemma categorize_loop releases : ∀ sets g,
  (g ∈ fst (foldl categorize_step sets releases) ↔
     g ∈ fst sets ∨ ∃ release, release ∈ releases ∧ ¬ no_team release
        ∧ tv_cat release ∧ g = Str.lower (team_of release))
  ∧ (g ∈ snd (foldl categorize_step sets releases) ↔
     g ∈ snd sets ∨ ∃ release, release ∈ releases ∧ ¬ no_team release
        ∧ ¬ tv_cat release ∧ movie_cat release ∧ g = Str.lower (team_of release)).
Proof.
  induction releases as [|r releases IH]; intros sets g; simpl.
  - split; (split; [auto | intros [H|(release & Hin & _)]; [exact H | inv Hin]]).
  - destruct (IH (categorize_step sets r) g) as [IHt IHm].
    rewrite IHt, IHm, categorize_step_tv, categorize_step_movie.
    split; split.
    + intros [[H|H]|(release & Hin & H)]; [auto| |].
      * right. exists r. split; [left | exact H].
      * right. exists release. split; [right; exact Hin | exact H].
    + intros [H|(release & Hin & H)]; [auto|].
      apply elem_of_cons in Hin as [->|Hin]; [auto|]. right. exists release. auto.
    + intros [[H|H]|(release & Hin & H)]; [auto| |].
      * right. exists r. split; [left | exact H].
      * right. exists release. split; [right; exact Hin | exact H].
    + intros [H|(release & Hin & H)]; [auto|].
      apply elem_of_cons in Hin as [->|Hin]; [auto|]. right. exists release. auto.
Qed.

Lemma upper_app a b : Str.upper (a +:+ b) = Str.upper a +:+ Str.upper b.
Proof.
  induction a as [|c a IH]; [reflexivity|].
  rewrite sapp_cons. simpl. rewrite IH.
  destruct (Chr.code c =? 223)%nat; reflexivity.
Qed.

Lemma starts_with_app w t : Str.starts_with w (w +:+ t) = true.
Proof.
  induction w as [|c w IH]; [reflexivity|].
  rewrite sapp_cons. simpl. rewrite Ascii.eqb_refl, IH. reflexivity.
Qed.

Lemma contains_app w a b : Str.contains w (a +:+ w +:+ b) = true.
Proof.
  induction a as [|c a IH].
  - change ("" +:+ w +:+ b) with (w +:+ b).
    destruct (w +:+ b) eqn:E; simpl; rewrite <- E, starts_with_app; reflexivity.
  - rewrite sapp_cons. simpl. rewrite IH. apply orb_true_r.
Qed.

Lemma starts_with_split w : ∀ s,
  Str.starts_with w s = true -> ∃ b, s = w +:+ b.
Proof.
  induction w as [|c w IH]; intros s H; [exists s; reflexivity|].
  destruct s as [|x s]; [discriminate|]. simpl in H.
  apply andb_true_iff in H as [->%Ascii.eqb_eq H].
  destruct (IH s H) as [b ->]. exists b. reflexivity.
Qed.

Lemma contains_split w s :
  Str.contains w s = true -> ∃ a b, s = a +:+ w +:+ b.
Proof.
  induction s as [|c s IH]; simpl; rewrite orb_true_iff.
  - intros [H|H]; [|discriminate]. apply starts_with_split in H as [b ->].
    exists "", b. reflexivity.
  - intros [H|H].
    + apply starts_with_split in H as [b ->]. exists "", b. reflexivity.
    + destruct (IH H) as (a & b & ->). exists (String c a), b. reflexivity.
Qed.

Lemma contains_upper w s :
  Str.contains w s = true -> Str.contains (Str.upper w) (Str.upper s) = true.
Proof.
  intros (a & b & ->)%contains_split. rewrite !upper_app. apply contains_app.
Qed.

Lemma lstrip_empty t : Str.lstrip t = "" ↔ Str.all Chr.is_space t = true.
Proof.
  induction t as [|c t IH]; simpl; [tauto|].
  destruct (Chr.is_space c); simpl; [exact IH | split; discriminate].
Qed.

Lemma rstrip_empty t : Str.rstrip t = "" ↔ Str.all Chr.is_space t = true.
Proof.
  induction t as [|c t IH]; simpl; [tauto|].
  destruct (Str.rstrip t) eqn:Hr.
  - destruct (Chr.is_space c); simpl; [|split; discriminate].
    rewrite <- IH. tauto.
  - rewrite andb_true_iff, <- IH. split; [discriminate | intros [_ H]; discriminate H].
Qed.

Lemma lstrip_head t :
  Str.lstrip t = "" ∨ ∃ c t', Str.lstrip t = String c t' ∧ Chr.is_space c = false.
Proof.
  induction t as [|c t IH]; simpl; [auto|].
  destruct (Chr.is_space c) eqn:Hc; [exact IH|]. right. eauto.
Qed.

Lemma strip_empty t : Str.strip t = "" ↔ Str.all Chr.is_space t = true.
Proof.
  unfold Str.strip. rewrite rstrip_empty.
  destruct (lstrip_head t) as [H|(c & t' & H & Hc)]; rewrite H; simpl.
  - apply lstrip_empty in H. tauto.
  - rewrite Hc. split; [discriminate|].
    intros Hall%lstrip_empty. congruence.
Qed.

Lemma categorize_groups_lower releases :
  (∀ g, g ∈ fst (categorize_groups releases) -> Str.lower g = g)
  ∧ (∀ g, g ∈ snd (categorize_groups releases) -> Str.lower g = g).
Proof.
  unfold categorize_groups. split; intros g Hg.
  - apply (proj1 (categorize_loop releases (∅, ∅) g)) in Hg
      as [Hg|(r & _ & _ & _ & ->)]; [|apply lower_idemp].
    apply elem_of_empty in Hg. destruct Hg.
  - apply (proj2 (categorize_loop releases (∅, ∅) g)) in Hg
      as [Hg|(r & _ & _ & _ & _ & ->)]; [|apply lower_idemp].
    apply elem_of_empty in Hg. destruct Hg.
Qed.

Lemma scrape_loop_lower pages : ∀ all,
  (∀ g, g ∈ fst all -> Str.lower g = g) ->
  (∀ g, g ∈ snd all -> Str.lower g = g) ->
  (∀ g, g ∈ fst (scrape_loop pages all) -> Str.lower g = g)
  ∧ (∀ g, g ∈ snd (scrape_loop pages all) -> Str.lower g = g).
Proof.
  induction pages as [|releases pages IH]; intros all Ht Hm; simpl; [auto|].
  destruct releases as [|r releases]; [auto|].
  destruct (categorize_groups_lower (r :: releases)) as [Ht' Hm'].
  apply IH; simpl; intros g [H|H]%elem_of_union; auto.
Qed.

Lemma scrape_groups_lower n pages :
  (∀ g, g ∈ fst (scrape_groups n pages) -> Str.lower g = g)
  ∧ (∀ g, g ∈ snd (scrape_groups n pages) -> Str.lower g = g).
Proof.
  apply scrape_loop_lower; simpl; intros g Hg; apply elem_of_empty in Hg; destruct Hg.
Qed.

Lemma sorted_plain_by_lower l :
  (∀ g, g ∈ l -> Str.lower g = g) ->
  Sorted (key_le Str.lower) (sorted (fun g => g) l).
Proof.
  intros Hlow.
  assert (Hall : Forall (fun g => Str.lower g = g) (sorted (fun g => g) l)).
  { apply Forall_forall. intros g Hg. apply Hlow.
    rewrite <- (sorted_perm (fun g => g) l). exact Hg. }
  pose proof (sorted_sorted (fun g => g) l) as Hs.
  induction Hs as [|a l' Hs IH Hhd]; [constructor|].
  apply Forall_cons in Hall as [Ha Hall].
  constructor; [apply IH; assumption|].
  destruct Hhd as [|b l'' Hab]; constructor.
  apply Forall_cons in Hall as [Hb _].
  unfold key_le in *. rewrite Ha, Hb. exact Hab.
Qed.

(** C8.  The emitted sequence of mined tokens is sorted by lower-cased
    form.  [sorted] returns the groups it is given, each as often as it
    occurs, ordered by lower-cased key; the entries written are those keys
    in that order, so they are the lower-cased tokens, none lost and none
    added, and for [main] the lower-cased members of the valid set; and the
    entries are the same for every order in which the set yields its
    members.  The two sequences of [generate_go_arrays] hold the members of
    the two sets, are sorted and independent of the iteration order as
    well, and their members, lower-cased on insertion by
    [categorize_groups], are in the order of their lower-cased forms. *)
Theorem emitted_order_sorted :
  (∀ groups, sorted Str.lower groups ≡ₚ groups)
  ∧ (∀ groups, releaseGroups (generate_go_code groups) ≡ₚ Str.lower <$> groups)
  ∧ (∀ lines e, e ∈ releaseGroups (main lines) ↔
        ∃ g, g ∈ filter_valid_groups (filter_tv_movie_groups lines)
             ∧ e = Str.lower g)
  ∧ (∀ tv movie, fst (generate_go_arrays tv movie) ≡ₚ tv
                 ∧ snd (generate_go_arrays tv movie) ≡ₚ movie)
  ∧ (∀ groups, Sorted (key_le Str.lower) (sorted Str.lower groups))
  ∧ (∀ groups, releaseGroups (generate_go_code groups)
               = Str.lower <$> sorted Str.lower groups)
  ∧ (∀ groups, Sorted String.le (releaseGroups (generate_go_code groups)))
  ∧ (∀ groups groups', groups ≡ₚ groups' ->
        releaseGroups (generate_go_code groups)
        = releaseGroups (generate_go_code groups'))
  ∧ (∀ tv movie, Sorted String.le (fst (generate_go_arrays tv movie))
                 ∧ Sorted String.le (snd (generate_go_arrays tv movie)))
  ∧ (∀ tv tv' movie movie', tv ≡ₚ tv' -> movie ≡ₚ movie' ->
        generate_go_arrays tv movie = generate_go_arrays tv' movie')
  ∧ (∀ n pages tv movie,
        tv ≡ₚ elements (fst (scrape_groups n pages)) ->
        movie ≡ₚ elements (snd (scrape_groups n pages)) ->
        Sorted (key_le Str.lower) (fst (generate_go_arrays tv movie))
        ∧ Sorted (key_le Str.lower) (snd (generate_go_arrays tv movie))).
Proof.
  split; [apply sorted_perm|].
  split; [intros groups; rewrite releaseGroups_spec, sorted_perm; reflexivity|].
  split; [apply main_releaseGroups|].
  split; [intros tv movie; split; apply sorted_perm|].
  split; [apply sorted_sorted|]. split; [apply releaseGroups_spec|].
  split; [|split; [|split; [|split]]].
  - intros groups. rewrite releaseGroups_spec. apply sorted_keys.
  - intros groups groups' Hp. rewrite !releaseGroups_spec.
    apply sorted_keys_unique, Hp.
  - intros tv movie. unfold generate_go_arrays. simpl.
    pose proof (sorted_keys (fun g => g) tv) as Ht.
    pose proof (sorted_keys (fun g => g) movie) as Hm.
    rewrite list_fmap_id in Ht, Hm. auto.
  - intros tv tv' movie movie' Ht Hm. unfold generate_go_arrays.
    rewrite (sorted_plain_unique tv tv' Ht), (sorted_plain_unique movie movie' Hm).
    reflexivity.
  - intros n pages tv movie Ht Hm. unfold generate_go_arrays. simpl.
    destruct (scrape_groups_lower n pages) as [Hlt Hlm].
    split; apply sorted_plain_by_lower; intros g Hg.
    + apply Hlt. rewrite Ht in Hg. apply elem_of_elements, Hg.
    + apply Hlm. rewrite Hm in Hg. apply elem_of_elements, Hg.
Qed.

(** The claim of C10 fails on a release with a team whose category is
    neither TV nor movie: the team enters neither set. *)
Lemma uncategorized_team_dropped :
  team_of games_release = "GRP"
  ∧ ¬ no_team games_release
  ∧ categorize_groups [games_release] = (∅, ∅).
Proof.
  split; [vm_compute; reflexivity|]. split.
  - apply keep_test. vm_compute. reflexivity.
  - vm_compute. reflexivity.
Qed.

(** C10 (amended).  A release whose team is missing, made of whitespace
    only, or the word none in any case, adds nothing to the TV set, to the
    movie set, or to the set of [extract_groups].  Every other team is
    lower-cased; [extract_groups] inserts it; [categorize_groups] inserts it
    in the TV set alone when the upper-cased category contains TV (whatever
    else the category contains), in the movie set alone when it contains
    MOVIE, X264 or XVID and not TV, and in neither set otherwise. *)
Theorem categorize_groups_assignment :
  (∀ sets release, no_team release -> categorize_step sets release = sets)
  ∧ (∀ groups release, no_team release -> extract_groups_step groups release = groups)
  ∧ (∀ release, release !! "team" = None -> no_team release)
  ∧ (∀ release, no_team release ↔
        Str.all Chr.is_space (get release "team") = true
        ∨ Str.lower (team_of release) = "none")
  ∧ (∀ t, Str.lower t = "none" ↔
        ∃ c1 c2 c3 c4, t = String c1 (String c2 (String c3 (String c4 "")))
          ∧ (c1 = "n" ∨ c1 = "N")%char ∧ (c2 = "o" ∨ c2 = "O")%char
          ∧ (c3 = "n" ∨ c3 = "N")%char ∧ (c4 = "e" ∨ c4 = "E")%char)
  ∧ (∀ groups release, ¬ no_team release ->
        extract_groups_step groups release
        = {[Str.lower (team_of release)]} ∪ groups)
  ∧ (∀ sets release, ¬ no_team release -> tv_cat release ->
        categorize_step sets release
        = ({[Str.lower (team_of release)]} ∪ fst sets, snd sets))
  ∧ (∀ sets release, ¬ no_team release -> ¬ tv_cat release -> movie_cat release ->
        categorize_step sets release
        = (fst sets, {[Str.lower (team_of release)]} ∪ snd sets))
  ∧ (∀ sets release, ¬ no_team release -> ¬ tv_cat release -> ¬ movie_cat release ->
        categorize_step sets release = sets)
  ∧ (∀ release w, Str.contains w (get release "cat") = true ->
        Str.upper w = "TV" -> tv_cat release)
  ∧ (∀ releases g, g ∈ fst (categorize_groups releases) ↔
        ∃ release, release ∈ releases ∧ ¬ no_team release ∧ tv_cat release
                   ∧ g = Str.lower (team_of release))
  ∧ (∀ releases g, g ∈ snd (categorize_groups releases) ↔
        ∃ release, release ∈ releases ∧ ¬ no_team release ∧ ¬ tv_cat release
                   ∧ movie_cat release ∧ g = Str.lower (team_of release)).
Proof.
  assert (Hskip : ∀ sets release, no_team release -> categorize_step sets release = sets).
  { intros sets release H%skip_test. rewrite categorize_step_cases, H. reflexivity. }
  assert (Hkeep : ∀ sets release, ¬ no_team release ->
            categorize_step sets release =
              if Str.contains "TV" (Str.upper (get release "cat"))
              then (set_add (Str.lower (team_of release)) (fst sets), snd sets)
              else if Str.contains "MOVIE" (Str.upper (get release "cat"))
                      || Str.contains "X264" (Str.upper (get release "cat"))
                      || Str.contains "XVID" (Str.upper (get release "cat"))
              then (fst sets, set_add (Str.lower (team_of release)) (snd sets))
              else sets).
  { intros sets release H. rewrite categorize_step_cases.
    destruct (String.eqb _ _ || String.eqb _ _) eqn:E; [|reflexivity].
    apply skip_test in E. tauto. }
  repeat apply conj.
  - exact Hskip.
  - intros groups release H. unfold extract_groups_step. fold (team_of release).
    destruct (negb _ && negb _) eqn:E; [|reflexivity].
    apply keep_test in E. tauto.
  - intros release Hnone. left. unfold team_of, get. rewrite Hnone. reflexivity.
  - intros release. unfold no_team, team_of. rewrite strip_empty. reflexivity.
  - exact lower_none.
  - intros groups release H. unfold extract_groups_step. fold (team_of release).
    apply keep_test in H. rewrite H. reflexivity.
  - intros sets release Hteam Htv. rewrite (Hkeep _ _ Hteam).
    unfold tv_cat in Htv. rewrite Htv. reflexivity.
  - intros sets release Hteam Htv Hmovie. rewrite (Hkeep _ _ Hteam).
    unfold tv_cat in Htv. apply not_true_is_false in Htv. rewrite Htv.
    apply movie_test in Hmovie. rewrite Hmovie. reflexivity.
  - intros sets release Hteam Htv Hmovie. rewrite (Hkeep _ _ Hteam).
    unfold tv_cat in Htv. apply not_true_is_false in Htv. rewrite Htv.
    rewrite <- movie_test in Hmovie. apply not_true_is_false in Hmovie.
    rewrite Hmovie. reflexivity.
  - intros release w Hw Hup. unfold tv_cat. rewrite <- Hup.
    apply contains_upper, Hw.
  - intros releases g. unfold categorize_groups.
    rewrite (proj1 (categorize_loop releases (∅, ∅) g)). simpl.
    rewrite elem_of_empty. tauto.
  - intros releases g. unfold categorize_groups.
    rewrite (proj2 (categorize_loop releases (∅, ∅) g)). simpl.
    rewrite elem_of_empty. tauto.
Qed.

(* ===================================================================== *)
(** ** The scenario of the specification, run on the embedding *)

Example scenario_candidates :
  List.map (fun line => extract_group (release_name line))
    ["Movie.Name.2024.1080p.BluRay-SPARKS"; "Show.S01E02.720p.HDTV-sparks";
     "Random.File.Name.txt"; "Test.Release-TEST"]
  = [Some "SPARKS"; Some "sparks"; None; Some "TEST"].
Proof. vm_compute. reflexivity. Qed.

Example scenario_classes :
  List.map (fun line => classify (release_name line))
    ["Movie.Name.2024.1080p.BluRay-SPARKS"; "Show.S01E02.720p.HDTV-sparks";
     "Random.File.Name.txt"; "Test.Release-TEST"]
  = [Movie; TV; Unclassified; Unclassified].
Proof. vm_compute. reflexivity. Qed.

Example scenario_shapes :
  List.map is_valid_shape ["A1"; "1"; "123"; "AB-C"] = [true; false; false; false].
Proof. vm_compute. reflexivity. Qed.

Example scenario_unclassified_suffix :
  extract_group (release_name "Random.File.Name-GROUP,1,2") = Some "GROUP"
  ∧ filter_step ∅ "Random.File.Name-GROUP,1,2" = ∅.
Proof. split; vm_compute; reflexivity. Qed.

Example scenario_tv_before_movie :
  categorize_step (∅, ∅) {[ "team" := " Grp "; "cat" := "tv-movie-720p" ]}
  = ({["grp"]}, ∅).
Proof. vm_compute. reflexivity. Qed.

(* ===================================================================== *)
(** ** Release names: the first column, stripped *)

Lemma first_field_free sep s : Str.all (not_char sep) (Str.first_field sep s) = true.
Proof.
  induction s as [|c s IH]; simpl; [reflexivity|].
  destruct (Ascii.eqb c sep) eqn:Hc; simpl; [reflexivity|].
  unfold not_char at 1. rewrite Hc, IH. reflexivity.
Qed.

Lemma first_field_app sep a b :
  Str.all (not_char sep) a = true ->
  Str.first_field sep (a +:+ String sep b) = a.
Proof.
  induction a as [|c a IH]; intros Ha.
  - change ("" +:+ String sep b) with (String sep b). simpl.
    rewrite Ascii.eqb_refl. reflexivity.
  - simpl in Ha. apply andb_true_iff in Ha as [Hc Ha].
    rewrite sapp_cons. simpl. apply negb_true_iff in Hc. rewrite Hc, (IH Ha).
    reflexivity.
Qed.

Lemma first_field_whole sep a :
  Str.all (not_char sep) a = true -> Str.first_field sep a = a.
Proof.
  induction a as [|c a IH]; intros Ha; [reflexivity|].
  simpl in Ha. apply andb_true_iff in Ha as [Hc Ha].
  simpl. apply negb_true_iff in Hc. rewrite Hc, (IH Ha). reflexivity.
Qed.

Lemma lstrip_parts s :
  ∃ a, s = a +:+ Str.lstrip s ∧ Str.all Chr.is_space a = true.
Proof.
  induction s as [|c s (a & Hs & Ha)]; simpl; [exists ""; auto|].
  destruct (Chr.is_space c) eqn:Hc.
  - exists (String c a). rewrite sapp_cons, <- Hs. simpl. rewrite Hc, Ha. auto.
  - exists "". auto.
Qed.

Lemma rstrip_parts s :
  ∃ b, s = Str.rstrip s +:+ b ∧ Str.all Chr.is_space b = true.
Proof.
  induction s as [|c s (b & Hs & Hb)]; simpl; [exists ""; auto|].
  destruct (Str.rstrip s) as [|y r] eqn:Hr.
  - change ("" +:+ b) with b in Hs. subst b.
    destruct (Chr.is_space c) eqn:Hc.
    + exists (String c s). simpl. rewrite Hc, Hb. auto.
    + exists s. auto.
  - exists b. rewrite sapp_cons, <- Hs. auto.
Qed.

Lemma rstrip_last s : ∀ t c,
  Str.rstrip s = t +:+ String c "" -> Chr.is_space c = false.
Proof.
  induction s as [|x s IH]; intros t c; simpl.
  - destruct t; discriminate.
  - destruct (Str.rstrip s) as [|y r] eqn:Hr.
    + destruct (Chr.is_space x) eqn:Hx; [destruct t; discriminate|].
      destruct t as [|z t]; [intros [= <-]; exact Hx|].
      rewrite sapp_cons. intros [= _ H]. destruct t; discriminate H.
    + destruct t as [|z t]; [discriminate|].
      rewrite sapp_cons. intros [= _ H]. exact (IH t c H).
Qed.

Lemma rstrip_head x s :
  Chr.is_space x = false -> Str.rstrip (String x s) = String x (Str.rstrip s).
Proof.
  intros Hx. simpl. destruct (Str.rstrip s); [rewrite Hx|]; reflexivity.
Qed.

Lemma strip_trimmed s : trimmed (Str.strip s).
Proof.
  unfold Str.strip. split.
  - intros c t H.
    destruct (lstrip_head s) as [E|(x & u & E & Hx)]; rewrite E in H.
    + discriminate H.
    + rewrite (rstrip_head _ _ Hx) in H. injection H as <- _. exact Hx.
  - intros t c H. eapply rstrip_last, H.
Qed.

Lemma strip_parts s :
  ∃ a b, s = a +:+ Str.strip s +:+ b
         ∧ Str.all Chr.is_space a = true ∧ Str.all Chr.is_space b = true.
Proof.
  destruct (lstrip_parts s) as (a & Hs & Ha).
  destruct (rstrip_parts (Str.lstrip s)) as (b & Hl & Hb).
  exists a, b. unfold Str.strip. rewrite <- Hl. auto.
Qed.

Lemma trimmed_fixed s : trimmed s -> Str.strip s = s.
Proof.
  intros [Hhead Hlast]. unfold Str.strip.
  assert (Hl : Str.lstrip s = s).
  { destruct s as [|c t]; [reflexivity|]. simpl. rewrite (Hhead c t eq_refl). reflexivity. }
  rewrite Hl. clear Hl Hhead.
  induction s as [|c s IH]; [reflexivity|]. simpl.
  destruct s as [|d s].
  - simpl. rewrite (Hlast "" c eq_refl). reflexivity.
  - rewrite IH.
    + reflexivity.
    + intros t x Hx. apply (Hlast (String c t) x). rewrite sapp_cons, Hx. reflexivity.
Qed.

Lemma all_strip p s : Str.all p s = true -> Str.all p (Str.strip s) = true.
Proof.
  destruct (strip_parts s) as (a & b & Hs & _). intros H.
  rewrite Hs, !all_app in H.
  apply andb_true_iff in H as [_ H]. apply andb_true_iff in H as [H _]. exact H.
Qed.

(** X1.  A release name is read from the first column alone: what follows
    the first comma of a line has no effect on it.  The name holds no comma
    and no whitespace at either end, it is the first column without the
    whitespace around it, and reading a release name again gives it back. *)
Theorem release_name_first_column :
  (∀ a b, Str.all (not_char ",") a = true ->
      release_name (a +:+ "," +:+ b) = release_name a)
  ∧ (∀ line, Str.all (not_char ",") (release_name line) = true)
  ∧ (∀ line, trimmed (release_name line))
  ∧ (∀ line, ∃ a b, Str.first_field "," line = a +:+ release_name line +:+ b
        ∧ Str.all Chr.is_space a = true ∧ Str.all Chr.is_space b = true)
  ∧ (∀ line, release_name (release_name line) = release_name line).
Proof.
  assert (Hfree : ∀ line, Str.all (not_char ",") (release_name line) = true).
  { intros line. apply all_strip, first_field_free. }
  split; [|split; [exact Hfree|split; [|split]]].
  - intros a b Ha. unfold release_name.
    change (a +:+ "," +:+ b) with (a +:+ String "," b).
    rewrite (first_field_app _ _ _ Ha), (first_field_whole _ _ Ha). reflexivity.
  - intros line. apply strip_trimmed.
  - intros line. apply strip_parts.
  - intros line. unfold release_name at 1.
    rewrite (first_field_whole _ _ (Hfree line)).
    apply trimmed_fixed, strip_trimmed.
Qed.

Lemma newline_is_space : Chr.is_space "010" = true.
Proof. reflexivity. Qed.

Lemma trimmed_candidate s tok :
  trimmed s ->
  (extract_group s = Some tok ↔ ∃ pre, s = pre +:+ "-" +:+ tok ∧ alnum_run tok).
Proof.
  intros [_ Hlast]. rewrite extract_group_spec. split.
  - intros (pre & r & Hs & Hrun & [->| ->]).
    + exists pre. rewrite sapp_nil_r in Hs. auto.
    + exfalso. unfold nl in Hs. rewrite <- !sapp_assoc in Hs.
      apply Hlast in Hs. rewrite newline_is_space in Hs. discriminate Hs.
  - intros (pre & Hs & Hrun). exists pre, "". rewrite sapp_nil_r. auto.
Qed.

(** X2.  In the mining loops the candidate is exactly the text after the
    last hyphen of the release name: a release name has a candidate if and
    only if it ends in a hyphen followed by one or more letters or digits,
    with no exception for a final newline. *)
Theorem release_name_candidate (line tok : string) :
  (extract_group (release_name line) = Some tok ↔
     ∃ pre, release_name line = pre +:+ "-" +:+ tok ∧ alnum_run tok)
  ∧ (extract_group (release_name line) = Some tok ->
     after_last "-" (release_name line) = Some tok).
Proof.
  pose proof (trimmed_candidate (release_name line) tok (strip_trimmed _)) as H.
  split; [exact H|].
  intros (pre & -> & [_ Hall])%H. rewrite app_hyphen.
  apply after_last_app. rewrite <- (sapp_nil_r tok).
  apply tail_no_hyphen; [exact Hall | reflexivity].
Qed.

(* ===================================================================== *)
(** ** The mining loops as set operations *)

Lemma mined_alnum lines g : g ∈ extract_release_groups lines -> alnum_run g.
Proof.
  intros (line & _ & He)%extract_release_groups_spec.
  apply extract_group_sound in He as (pre & r & _ & Hrun & _). exact Hrun.
Qed.

Lemma filtered_in_all lines g :
  g ∈ filter_tv_movie_groups lines -> g ∈ extract_release_groups lines.
Proof.
  intros (line & Hin & _ & He)%filter_tv_movie_groups_spec.
  apply extract_release_groups_spec. eauto.
Qed.

(** X3.  [extract_release_groups] collects the candidate of every line
    that has one; [filter_tv_movie_groups] collects a part of them, the
    candidates of the lines classified TV or Movie; every member of either
    set is a non-empty run of letters and digits. *)
Theorem mined_groups_subset (lines : list string) :
  (∀ g, g ∈ extract_release_groups lines ↔
        ∃ line, line ∈ lines ∧ extract_group (release_name line) = Some g)
  ∧ filter_tv_movie_groups lines ⊆ extract_release_groups lines
  ∧ (∀ g, g ∈ extract_release_groups lines -> alnum_run g)
  ∧ (∀ g, g ∈ filter_tv_movie_groups lines -> alnum_run g).
Proof.
  split; [intros g; apply extract_release_groups_spec|].
  split; [intros g; apply filtered_in_all|].
  split; intros g Hg; [|apply filtered_in_all in Hg]; eapply mined_alnum, Hg.
Qed.

Lemma filter_tv_movie_groups_app l1 l2 :
  filter_tv_movie_groups (l1 ++ l2)
  = filter_tv_movie_groups l1 ∪ filter_tv_movie_groups l2.
Proof.
  apply set_eq. intros g.
  rewrite elem_of_union, !filter_tv_movie_groups_spec. split.
  - intros (line & [Hin|Hin]%elem_of_app & H); [left|right]; exists line; auto.
  - intros [(line & Hin & H)|(line & Hin & H)]; exists line;
      (split; [apply elem_of_app; auto | exact H]).
Qed.

Lemma extract_release_groups_app l1 l2 :
  extract_release_groups (l1 ++ l2)
  = extract_release_groups l1 ∪ extract_release_groups l2.
Proof.
  apply set_eq. intros g.
  rewrite elem_of_union, !extract_release_groups_spec. split.
  - intros (line & [Hin|Hin]%elem_of_app & H); [left|right]; exists line; auto.
  - intros [(line & Hin & H)|(line & Hin & H)]; exists line;
      (split; [apply elem_of_app; auto | exact H]).
Qed.

Lemma filter_valid_groups_union A B :
  filter_valid_groups (A ∪ B) = filter_valid_groups A ∪ filter_valid_groups B.
Proof.
  apply set_eq. intros g.
  rewrite elem_of_union, !filter_valid_groups_spec, elem_of_union. tauto.
Qed.

(** X4.  The mined set does not depend on how the dump is cut or ordered:
    the set of a concatenation is the union of the sets of its parts, lines
    in another order give the same set, and a line read twice adds nothing.
    The same holds for [extract_release_groups]. *)
Theorem mining_by_parts :
  (∀ l1 l2, filter_tv_movie_groups (l1 ++ l2)
            = filter_tv_movie_groups l1 ∪ filter_tv_movie_groups l2)
  ∧ (∀ l1 l2, l1 ≡ₚ l2 -> filter_tv_movie_groups l1 = filter_tv_movie_groups l2)
  ∧ (∀ l, filter_tv_movie_groups (l ++ l) = filter_tv_movie_groups l)
  ∧ (∀ l1 l2, extract_release_groups (l1 ++ l2)
              = extract_release_groups l1 ∪ extract_release_groups l2)
  ∧ (∀ l1 l2, l1 ≡ₚ l2 -> extract_release_groups l1 = extract_release_groups l2).
Proof.
  split; [exact filter_tv_movie_groups_app|]. split; [|split; [|split]].
  - intros l1 l2 Hp. apply set_eq. intros g.
    rewrite !filter_tv_movie_groups_spec.
    split; intros (line & Hin & H); exists line; (split; [|exact H]).
    + rewrite <- Hp. exact Hin.
    + rewrite Hp. exact Hin.
  - intros l. rewrite filter_tv_movie_groups_app. apply union_idemp_L.
  - exact extract_release_groups_app.
  - intros l1 l2 Hp. apply set_eq. intros g.
    rewrite !extract_release_groups_spec.
    split; intros (line & Hin & H); exists line; (split; [|exact H]).
    + rewrite <- Hp. exact Hin.
    + rewrite Hp. exact Hin.
Qed.

(** X5.  [filter_valid_groups] only removes members; filtering a filtered
    set changes nothing; the filter of a union is the union of the filters,
    so the valid groups of a dump read in two parts are those of the parts
    together. *)
Theorem filter_valid_groups_laws :
  (∀ G, filter_valid_groups G ⊆ G)
  ∧ (∀ G, filter_valid_groups (filter_valid_groups G) = filter_valid_groups G)
  ∧ (∀ A B, filter_valid_groups (A ∪ B)
            = filter_valid_groups A ∪ filter_valid_groups B)
  ∧ (∀ l1 l2, filter_valid_groups (filter_tv_movie_groups (l1 ++ l2))
              = filter_valid_groups (filter_tv_movie_groups l1)
                ∪ filter_valid_groups (filter_tv_movie_groups l2)).
Proof.
  split; [|split; [|split]].
  - intros G g [Hg _]%filter_valid_groups_spec. exact Hg.
  - intros G. apply set_eq. intros g. rewrite !filter_valid_groups_spec. tauto.
  - exact filter_valid_groups_union.
  - intros l1 l2. rewrite filter_tv_movie_groups_app. apply filter_valid_groups_union.
Qed.

(* ===================================================================== *)
(** ** Letter case *)

Lemma lower_append s t : Str.lower (s +:+ t) = Str.lower s +:+ Str.lower t.
Proof.
  induction s as [|c s IH]; [reflexivity|].
  rewrite sapp_cons, !lower_cons, IH. reflexivity.
Qed.

Lemma lower_cons_inv s c t :
  Str.lower s = String c t ->
  ∃ c' t', s = String c' t' ∧ Chr.to_lower c' = c ∧ Str.lower t' = t.
Proof.
  destruct s as [|c' t']; [discriminate|].
  rewrite lower_cons. intros [= <- <-]. eauto.
Qed.

Lemma lower_split a : ∀ s b,
  Str.lower s = a +:+ b ->
  ∃ a' b', s = a' +:+ b' ∧ Str.lower a' = a ∧ Str.lower b' = b.
Proof.
  induction a as [|c a IH]; intros s b H.
  - exists "", s. auto.
  - rewrite sapp_cons in H.
    apply lower_cons_inv in H as (c' & t' & -> & <- & H).
    apply IH in H as (a' & b' & -> & <- & <-).
    exists (String c' a'), b'. auto.
Qed.

Lemma all_lower p s :
  (∀ c, p (Chr.to_lower c) = p c) -> Str.all p (Str.lower s) = Str.all p s.
Proof.
  intros Hp. induction s as [|c s IH]; [reflexivity|].
  rewrite lower_cons. simpl. rewrite Hp, IH. reflexivity.
Qed.

Lemma is_alpha_to_lower c : Chr.is_alpha (Chr.to_lower c) = Chr.is_alpha c.
Proof. by_cases_on_char c. Qed.

Lemma is_alnum_to_lower c : Chr.is_alnum (Chr.to_lower c) = Chr.is_alnum c.
Proof. by_cases_on_char c. Qed.

Lemma is_digit_to_lower c : Chr.is_digit (Chr.to_lower c) = Chr.is_digit c.
Proof. by_cases_on_char c. Qed.

Lemma to_lower_newline c : Chr.to_lower c = "010"%char ↔ c = "010"%char.
Proof. by_cases_on_char c. Qed.

Lemma at_end_lower r : at_end (Str.lower r) = at_end r.
Proof.
  destruct r as [|c [|d r]]; try reflexivity.
  rewrite lower_cons. simpl.
  destruct (Ascii.eqb c "010") eqn:Hc.
  - apply Ascii.eqb_eq in Hc as ->. reflexivity.
  - apply Ascii.eqb_neq. rewrite to_lower_newline. apply Ascii.eqb_neq, Hc.
Qed.

Lemma alnum_run_lower body : alnum_run (Str.lower body) ↔ alnum_run body.
Proof.
  unfold alnum_run. rewrite (all_lower _ _ is_alnum_to_lower), lower_empty.
  reflexivity.
Qed.

Lemma is_valid_shape_lower tok :
  is_valid_shape (Str.lower tok) = is_valid_shape tok.
Proof.
  apply Bool.eq_iff_eq_true. rewrite !is_valid_shape_spec. split.
  - intros (c & body & r & H & Hc & Hrun & Hend).
    apply lower_cons_inv in H as (c' & t' & -> & <- & H).
    apply lower_split in H as (body' & r' & -> & <- & <-).
    exists c', body', r'. rewrite is_alpha_to_lower in Hc.
    rewrite alnum_run_lower in Hrun. rewrite at_end_lower in Hend. auto.
  - intros (c & body & r & -> & Hc & Hrun & Hend).
    exists (Chr.to_lower c), (Str.lower body), (Str.lower r).
    rewrite lower_cons, lower_append, is_alpha_to_lower, alnum_run_lower, at_end_lower.
    auto.
Qed.

Lemma starts_nocase_lower w s : starts_nocase w (Str.lower s) ↔ starts_nocase w s.
Proof.
  split.
  - intros (mid & post & H & Hw).
    apply lower_split in H as (mid' & post' & -> & <- & <-).
    exists mid', post'. rewrite lower_idemp in Hw. auto.
  - intros (mid & post & -> & Hw).
    exists (Str.lower mid), (Str.lower post).
    rewrite lower_append, lower_idemp. auto.
Qed.

Lemma occurs_nocase_lower w s : occurs_nocase w (Str.lower s) ↔ occurs_nocase w s.
Proof.
  split.
  - intros (pre & mid & post & H & Hw).
    apply lower_split in H as (pre' & rest' & -> & <- & H).
    apply lower_split in H as (mid' & post' & -> & <- & <-).
    exists pre', mid', post'. rewrite lower_idemp in Hw. auto.
  - intros (pre & mid & post & -> & Hw).
    exists (Str.lower pre), (Str.lower mid), (Str.lower post).
    rewrite !lower_append, lower_idemp. auto.
Qed.

Lemma episode_marker_lower s : episode_marker (Str.lower s) ↔ episode_marker s.
Proof.
  split.
  - intros (pre & c1 & d1 & d2 & c2 & d3 & d4 & post & H & H1 & H2 & D1 & D2 & D3 & D4).
    apply lower_split in H as (pre' & r & -> & <- & H).
    apply lower_cons_inv in H as (c1' & r1 & -> & <- & H).
    apply lower_cons_inv in H as (d1' & r2 & -> & <- & H).
    apply lower_cons_inv in H as (d2' & r3 & -> & <- & H).
    apply lower_cons_inv in H as (c2' & r4 & -> & <- & H).
    apply lower_cons_inv in H as (d3' & r5 & -> & <- & H).
    apply lower_cons_inv in H as (d4' & r6 & -> & <- & <-).
    rewrite to_lower_idemp in H1, H2. rewrite is_digit_to_lower in D1, D2, D3, D4.
    exists pre', c1', d1', d2', c2', d3', d4', r6. auto 10.
  - intros (pre & c1 & d1 & d2 & c2 & d3 & d4 & post & -> & H1 & H2 & D1 & D2 & D3 & D4).
    exists (Str.lower pre), (Chr.to_lower c1), (Chr.to_lower d1), (Chr.to_lower d2),
      (Chr.to_lower c2), (Chr.to_lower d3), (Chr.to_lower d4), (Str.lower post).
    rewrite lower_append, !lower_cons, !to_lower_idemp, !is_digit_to_lower. auto 10.
Qed.

Lemma is_excluded_lower tok : is_excluded (Str.lower tok) = is_excluded tok.
Proof.
  apply Bool.eq_iff_eq_true. rewrite !is_excluded_spec.
  split; intros (w & Hin & H); exists w; (split; [exact Hin|]);
    apply starts_nocase_lower; exact H.
Qed.

Lemma is_tv_lower s : is_tv (Str.lower s) = is_tv s.
Proof.
  apply Bool.eq_iff_eq_true. rewrite !is_tv_spec. unfold tv_indicator.
  rewrite episode_marker_lower, !occurs_nocase_lower. reflexivity.
Qed.

Lemma is_movie_lower s : is_movie (Str.lower s) = is_movie s.
Proof.
  apply Bool.eq_iff_eq_true. rewrite !is_movie_spec, <- !is_tv_spec, is_tv_lower.
  unfold movie_indicator.
  split; intros [(w & Hin & H) Ht]; (split; [|exact Ht]); exists w;
    (split; [exact Hin|]); apply occurs_nocase_lower; exact H.
Qed.

Lemma is_ascii_to_lower c : Chr.is_ascii (Chr.to_lower c) = Chr.is_ascii c.
Proof. by_cases_on_char c. Qed.

Lemma lower_ascii s :
  Str.all Chr.is_ascii s = true -> Str.all Chr.is_ascii (Str.lower s) = true.
Proof. rewrite (all_lower _ _ is_ascii_to_lower). auto. Qed.

Lemma validate_lower tok : validate (Str.lower tok) = validate tok.
Proof.
  unfold validate. rewrite is_valid_shape_lower, is_excluded_lower. reflexivity.
Qed.

(** X6.  On a token of ASCII characters (every token that the mining loop
    hands on is one), validation does not look at letter case: the
    lower-cased token is ASCII again and has the same shape verdict and the
    same exclusion verdict as the token, so two ASCII spellings of one
    group are kept or dropped together. *)
Theorem validate_ignores_case (tok : string) :
  Str.all Chr.is_ascii tok = true ->
  Str.all Chr.is_ascii (Str.lower tok) = true
  ∧ is_valid_shape (Str.lower tok) = is_valid_shape tok
  ∧ is_excluded (Str.lower tok) = is_excluded tok
  ∧ validate (Str.lower tok) = validate tok
  ∧ (∀ tok', Str.all Chr.is_ascii tok' = true ->
       Str.lower tok = Str.lower tok' -> validate tok = validate tok').
Proof.
  intros Hascii. split; [apply lower_ascii, Hascii|].
  split; [apply is_valid_shape_lower|]. split; [apply is_excluded_lower|].
  split; [apply validate_lower|].
  intros tok' _ Heq. rewrite <- (validate_lower tok), <- (validate_lower tok'), Heq.
  reflexivity.
Qed.

(** X6 on the token Sparks. *)
Lemma validate_ignores_case_witness :
  Str.all Chr.is_ascii "Sparks" = true
  ∧ Str.all Chr.is_ascii (Str.lower "Sparks") = true
  ∧ is_valid_shape (Str.lower "Sparks") = is_valid_shape "Sparks"
  ∧ is_excluded (Str.lower "Sparks") = is_excluded "Sparks"
  ∧ validate (Str.lower "Sparks") = validate "Sparks"
  ∧ (∀ tok', Str.all Chr.is_ascii tok' = true ->
       Str.lower "Sparks" = Str.lower tok' -> validate "Sparks" = validate tok').
Proof.
  split; [reflexivity|]. exact (validate_ignores_case "Sparks" eq_refl).
Defined.

Lemma classify_lower s : classify (Str.lower s) = classify s.
Proof. unfold classify. rewrite is_tv_lower, is_movie_lower. reflexivity. Qed.

(** X7.  On a release name of ASCII characters, classification does not
    look at letter case: the lower-cased name is ASCII again and is in the
    same class as the name, and so are two ASCII names that differ in case
    only. *)
Theorem classify_ignores_case (s : string) :
  Str.all Chr.is_ascii s = true ->
  Str.all Chr.is_ascii (Str.lower s) = true
  ∧ classify (Str.lower s) = classify s
  ∧ (∀ s', Str.all Chr.is_ascii s' = true ->
       Str.lower s = Str.lower s' -> classify s = classify s').
Proof.
  intros Hascii. split; [apply lower_ascii, Hascii|].
  split; [apply classify_lower|].
  intros s' _ Heq. rewrite <- (classify_lower s), <- (classify_lower s'), Heq.
  reflexivity.
Qed.

(** X7 on a release name of the scenario. *)
Lemma classify_ignores_case_witness :
  Str.all Chr.is_ascii "Show.S01E02.720p.HDTV-Sparks" = true
  ∧ Str.all Chr.is_ascii (Str.lower "Show.S01E02.720p.HDTV-Sparks") = true
  ∧ classify (Str.lower "Show.S01E02.720p.HDTV-Sparks")
    = classify "Show.S01E02.720p.HDTV-Sparks"
  ∧ (∀ s', Str.all Chr.is_ascii s' = true ->
       Str.lower "Show.S01E02.720p.HDTV-Sparks" = Str.lower s' ->
       classify "Show.S01E02.720p.HDTV-Sparks" = classify s').
Proof.
  split; [reflexivity|].
  exact (classify_ignores_case "Show.S01E02.720p.HDTV-Sparks" eq_refl).
Defined.

(* ===================================================================== *)
(** ** What [main] writes *)

Lemma lower_of_alpha c : Chr.is_alpha c = true -> Chr.is_lower (Chr.to_lower c) = true.
Proof. by_cases_on_char c. Qed.

Lemma lower_of_alnum c :
  Chr.is_alnum c = true ->
  Chr.is_lower (Chr.to_lower c) || Chr.is_digit (Chr.to_lower c) = true.
Proof. by_cases_on_char c. Qed.

Lemma lower_or_digit_plain c :
  Chr.is_lower c || Chr.is_digit c = true ->
  negb (Ascii.eqb c "034") && negb (Ascii.eqb c "092") = true.
Proof. by_cases_on_char c. Qed.

Lemma all_impl (p q : ascii -> bool) s :
  (∀ c, p c = true -> q c = true) -> Str.all p s = true -> Str.all q s = true.
Proof.
  intros Hpq. induction s as [|c s IH]; [reflexivity|]. simpl.
  intros [Hc Hs]%andb_true_iff. rewrite (Hpq c Hc), (IH Hs). reflexivity.
Qed.

Lemma all_lower_of_alnum s :
  Str.all Chr.is_alnum s = true ->
  Str.all (fun x => Chr.is_lower x || Chr.is_digit x) (Str.lower s) = true.
Proof.
  induction s as [|c s IH]; [reflexivity|]. rewrite lower_cons. simpl.
  intros [Hc Hs]%andb_true_iff. rewrite (lower_of_alnum c Hc), (IH Hs). reflexivity.
Qed.

Lemma valid_mined_letter_led lines g :
  g ∈ filter_valid_groups (filter_tv_movie_groups lines) -> letter_led g.
Proof.
  intros [Hg Hv]%filter_valid_groups_spec.
  apply filtered_in_all, mined_alnum in Hg as [_ Hall].
  unfold validate in Hv. apply andb_true_iff in Hv as [Hv _].
  apply is_valid_shape_spec in Hv as (c & body & r & -> & Hc & Hrun & Hend).
  apply at_end_cases in Hend as [->| ->].
  - rewrite sapp_nil_r. exists c, body. auto.
  - simpl in Hall. rewrite all_app in Hall.
    apply andb_true_iff in Hall as [_ Hall]. apply andb_true_iff in Hall as [_ Hall].
    discriminate Hall.
Qed.

Lemma lower_token_of_letter_led g : letter_led g -> lower_token (Str.lower g).
Proof.
  intros (c & body & -> & Hc & Hne & Hall).
  exists (Chr.to_lower c), (Str.lower body). rewrite lower_cons.
  repeat split.
  - apply lower_of_alpha, Hc.
  - rewrite lower_empty. exact Hne.
  - apply all_lower_of_alnum, Hall.
Qed.

Lemma lower_token_plain e :
  lower_token e ->
  Str.all (fun x => negb (Ascii.eqb x "034") && negb (Ascii.eqb x "092")) e = true.
Proof.
  intros (c & body & -> & Hc & _ & Hall). simpl.
  rewrite (lower_or_digit_plain c) by (rewrite Hc; reflexivity).
  apply (all_impl _ _ _ lower_or_digit_plain Hall).
Qed.

(** X8.  Every entry that [main] writes in the [releaseGroups] slice is a
    lower-case letter followed by one or more lower-case letters or digits.
    It holds no quote and no backslash, so the text between the quotes of
    the generated Go literal is the entry itself; and the entry passes
    validation again. *)
Theorem emitted_entries_shape (lines : list string) (e : string) :
  e ∈ releaseGroups (main lines) ->
  lower_token e
  ∧ Str.all (fun x => negb (Ascii.eqb x "034") && negb (Ascii.eqb x "092")) e = true
  ∧ validate e = true.
Proof.
  intros (g & Hg & ->)%main_releaseGroups.
  pose proof (lower_token_of_letter_led g (valid_mined_letter_led lines g Hg)) as Ht.
  split; [exact Ht|]. split; [apply lower_token_plain, Ht|].
  apply filter_valid_groups_spec in Hg as [_ Hv].
  unfold validate in *. rewrite is_valid_shape_lower, is_excluded_lower. exact Hv.
Qed.

(** X8 on the two records of [sparks_records]. *)
Lemma emitted_entries_shape_witness :
  "sparks" ∈ releaseGroups (main sparks_records)
  ∧ lower_token "sparks"
  ∧ Str.all (fun x => negb (Ascii.eqb x "034") && negb (Ascii.eqb x "092")) "sparks" = true
  ∧ validate "sparks" = true.
Proof.
  assert (H : "sparks" ∈ releaseGroups (main sparks_records)).
  { apply (bool_decide_unpack _). vm_compute. exact I. }
  split; [exact H|].
  exact (emitted_entries_shape sparks_records "sparks" H).
Defined.

Lemma line_loop_inv l : ∀ st,
  Forall (fun ln => length ln = 8) (fst st) -> length (snd st) < 8 ->
  Forall (fun ln => length ln = 8) (fst (foldl line_step st l))
  ∧ length (snd (foldl line_step st l)) < 8.
Proof.
  induction l as [|g l IH]; intros [ls cur] Hls Hcur; simpl in *; [auto|].
  apply IH; unfold line_step; simpl;
    destruct (length (cur ++ [Str.lower g]) =? 8)%nat eqn:E; simpl; try lia.
  - apply Forall_app. split; [exact Hls|].
    constructor; [apply Nat.eqb_eq, E | constructor].
  - exact Hls.
  - apply Nat.eqb_neq in E. rewrite length_app in *. simpl in *. lia.
Qed.

Lemma go_lines_parts l :
  ∃ full last, go_lines l = full ++ last
    ∧ Forall (fun ln => length ln = 8) full
    ∧ (last = [] ∨ ∃ ln, last = [ln] ∧ 0 < length ln < 8).
Proof.
  unfold go_lines.
  destruct (line_loop_inv l ([], [])) as [Hfull Hcur]; [constructor | simpl; lia |].
  destruct (snd (foldl line_step ([], []) l)) as [|e cur] eqn:E.
  - exists (fst (foldl line_step ([], []) l)), []. rewrite app_nil_r. auto.
  - exists (fst (foldl line_step ([], []) l)), [e :: cur].
    split; [reflexivity|]. split; [exact Hfull|]. right.
    exists (e :: cur). split; [reflexivity|]. simpl in *. lia.
Qed.

Lemma concat_full (full : list (list string)) :
  Forall (fun ln => length ln = 8) full -> length (concat full) = 8 * length full.
Proof.
  induction 1 as [|ln full Hln _ IH]; [reflexivity|].
  simpl. rewrite length_app, IH, Hln. lia.
Qed.

(** X9.  [generate_go_code] writes the sorted groups eight to a line: every
    line but the last has exactly eight entries, the last has one to eight,
    no line is empty, the lines read in order are the lower-cased groups in
    order, and there are ceil(n/8) lines for n groups. *)
Theorem go_lines_eight_per_line (groups : list string) :
  (∃ full last, go_lines groups = full ++ last
     ∧ Forall (fun ln => length ln = 8) full
     ∧ (last = [] ∨ ∃ ln, last = [ln] ∧ 0 < length ln < 8))
  ∧ Forall (fun ln => 0 < length ln <= 8) (go_lines groups)
  ∧ concat (go_lines groups) = Str.lower <$> groups
  ∧ length (go_lines groups) = (length groups + 7) / 8.
Proof.
  destruct (go_lines_parts groups) as (full & last & Hgo & Hfull & Hlast).
  pose proof (concat_go_lines groups) as Hcat.
  split; [eauto|]. split; [|split; [exact Hcat|]].
  - rewrite Hgo. apply Forall_app. split.
    + eapply Forall_impl; [exact Hfull|]. simpl. intros ln ->. lia.
    + destruct Hlast as [->|(ln & -> & Hln)]; [constructor|].
      constructor; [lia | constructor].
  - apply (f_equal length) in Hcat.
    rewrite length_fmap, Hgo, concat_app, length_app, (concat_full _ Hfull) in Hcat.
    rewrite Hgo, length_app.
    destruct Hlast as [->|(ln & -> & Hln)].
    + change (length (concat [])) with 0 in Hcat.
      change (length (@nil (list string))) with 0.
      apply (Nat.div_unique _ 8 _ 7); lia.
    + assert (Hone : length (concat [ln]) = length ln)
        by (simpl; rewrite app_nil_r; reflexivity).
      rewrite Hone in Hcat. change (length [ln]) with 1.
      apply (Nat.div_unique _ 8 _ (length ln - 1)); lia.
Qed.

Lemma insert_loop_size l : ∀ (m : gmap string bool),
  size (foldl (fun groups group => <[group := true]> groups) m l) ≤ size m + length l.
Proof.
  induction l as [|g l IH]; intros m; simpl; [lia|].
  etrans; [apply IH|]. rewrite map_size_insert.
  destruct (m !! g); unfold id; lia.
Qed.

Lemma buildReleaseGroupMap_size code :
  size (buildReleaseGroupMap code)
  ≤ length (releaseGroups code) + length (genericTerms code)
    + length (qualityMarkers code).
Proof.
  unfold buildReleaseGroupMap. cbn [foldl].
  etrans; [apply insert_loop_size|].
  pose proof (insert_loop_size (genericTerms code)
    (foldl (fun groups group => <[group := true]> groups) ∅ (releaseGroups code))) as H1.
  pose proof (insert_loop_size (releaseGroups code) ∅) as H2.
  rewrite map_size_empty in H2. lia.
Qed.

(** X10.  The count in the header of the generated code is the number of
    entries of the [releaseGroups] slice, which are the lower-cased groups
    in another order, none lost and none added; for [main] it is the size
    of the set of valid groups.  The size hint given to [make] is never
    less than the number of keys of the map. *)
Theorem generated_code_counts (groups : list string) :
  total_groups (generate_go_code groups) = length (releaseGroups (generate_go_code groups))
  ∧ releaseGroups (generate_go_code groups) ≡ₚ Str.lower <$> groups
  ∧ size (buildReleaseGroupMap (generate_go_code groups))
    ≤ capacity (generate_go_code groups)
  ∧ (∀ lines, total_groups (main lines)
              = size (filter_valid_groups (filter_tv_movie_groups lines))).
Proof.
  assert (Hperm : releaseGroups (generate_go_code groups) ≡ₚ Str.lower <$> groups).
  { rewrite releaseGroups_spec, sorted_perm. reflexivity. }
  split; [|split; [exact Hperm|split]].
  - rewrite Hperm, length_fmap. reflexivity.
  - etrans; [apply buildReleaseGroupMap_size|].
    rewrite Hperm, length_fmap.
    change (length (genericTerms (generate_go_code groups))) with 22.
    change (length (qualityMarkers (generate_go_code groups))) with 26.
    change (capacity (generate_go_code groups)) with (length groups + 50). lia.
  - intros lines. reflexivity.
Qed.

(* ===================================================================== *)
(** ** The sets of update_blacklist.py *)

Lemma extract_groups_loop releases : ∀ groups g,
  g ∈ foldl extract_groups_step groups releases ↔
  g ∈ groups ∨ ∃ release, release ∈ releases ∧ ¬ no_team release
      ∧ g = Str.lower (team_of release).
Proof.
  induction releases as [|r releases IH]; intros groups g; simpl.
  - split; [auto | intros [H|(release & Hin & _)]; [exact H | inv Hin]].
  - rewrite IH. unfold extract_groups_step. fold (team_of r).
    pose proof (keep_test r) as Hkeep.
    destruct (negb _ && negb _).
    + assert (¬ no_team r) as Hr by (apply Hkeep; reflexivity).
      unfold set_add. rewrite elem_of_union, elem_of_singleton. split.
      * intros [[->|H]|(release & Hin & H)]; [|auto|].
        -- right. exists r. split; [left | auto].
        -- right. exists release. split; [right; exact Hin | exact H].
      * intros [H|(release & [->|Hin]%elem_of_cons & Hno & ->)]; auto.
        right. exists release. auto.
    + assert (no_team r) as Hr.
      { destruct (skip_test r) as [Hs _]. apply Hs.
        destruct (String.eqb _ _ || String.eqb _ _) eqn:E; [reflexivity|].
        exfalso. assert (¬ no_team r) as Hn by (rewrite <- skip_test, E; discriminate).
        apply Hkeep in Hn. discriminate Hn. }
      split.
      * intros [H|(release & Hin & H)]; [auto|].
        right. exists release. split; [right; exact Hin | exact H].
      * intros [H|(release & [->|Hin]%elem_of_cons & Hno & ->)]; [auto|tauto|].
        right. exists release. auto.
Qed.

Lemma extract_groups_spec releases g :
  g ∈ extract_groups releases ↔
  ∃ release, release ∈ releases ∧ ¬ no_team release
             ∧ g = Str.lower (team_of release).
Proof.
  unfold extract_groups. rewrite extract_groups_loop, elem_of_empty. tauto.
Qed.

Lemma categorize_tv_spec releases g :
  g ∈ fst (categorize_groups releases) ↔
  ∃ release, release ∈ releases ∧ ¬ no_team release ∧ tv_cat release
             ∧ g = Str.lower (team_of release).
Proof.
  unfold categorize_groups.
  rewrite (proj1 (categorize_loop releases (∅, ∅) g)). simpl.
  rewrite elem_of_empty. tauto.
Qed.

Lemma categorize_movie_spec releases g :
  g ∈ snd (categorize_groups releases) ↔
  ∃ release, release ∈ releases ∧ ¬ no_team release ∧ ¬ tv_cat release
             ∧ movie_cat release ∧ g = Str.lower (team_of release).
Proof.
  unfold categorize_groups.
  rewrite (proj2 (categorize_loop releases (∅, ∅) g)). simpl.
  rewrite elem_of_empty. tauto.
Qed.

(** X11.  [extract_groups] collects the lower-cased team of every release
    that has one, whatever its category; the TV set and the movie set of
    [categorize_groups] are parts of that set, and together they are all of
    it when every release that has a team has a TV or a movie category. *)
Theorem extract_groups_covers (releases : list (gmap string string)) :
  (∀ g, g ∈ extract_groups releases ↔
        ∃ release, release ∈ releases ∧ ¬ no_team release
                   ∧ g = Str.lower (team_of release))
  ∧ fst (categorize_groups releases) ∪ snd (categorize_groups releases)
    ⊆ extract_groups releases
  ∧ ((∀ release, release ∈ releases -> ¬ no_team release ->
        tv_cat release ∨ movie_cat release) ->
     fst (categorize_groups releases) ∪ snd (categorize_groups releases)
     = extract_groups releases).
Proof.
  split; [intros g; apply extract_groups_spec|].
  assert (Hsub : fst (categorize_groups releases) ∪ snd (categorize_groups releases)
                 ⊆ extract_groups releases).
  { intros g [H|H]%elem_of_union; apply extract_groups_spec.
    - apply categorize_tv_spec in H as (r & Hin & Hno & _ & ->). eauto.
    - apply categorize_movie_spec in H as (r & Hin & Hno & _ & _ & ->). eauto. }
  split; [exact Hsub|].
  intros Hcat. apply set_eq. intros g. split; [apply Hsub|].
  intros (r & Hin & Hno & ->)%extract_groups_spec. apply elem_of_union.
  assert (tv_cat r ∨ ¬ tv_cat r) as [Htv|Htv].
  { unfold tv_cat. destruct (Str.contains _ _); [left; reflexivity | right; discriminate]. }
  - left. apply categorize_tv_spec. exists r. auto.
  - right. apply categorize_movie_spec. exists r.
    destruct (Hcat r Hin Hno) as [H|H]; [tauto | auto].
Qed.

Lemma categorize_groups_app l1 l2 :
  categorize_groups (l1 ++ l2)
  = (fst (categorize_groups l1) ∪ fst (categorize_groups l2),
     snd (categorize_groups l1) ∪ snd (categorize_groups l2)).
Proof.
  destruct (categorize_groups (l1 ++ l2)) as [tv movie] eqn:E. f_equal.
  - apply set_eq. intros g. change tv with (fst (tv, movie)). rewrite <- E.
    rewrite elem_of_union, !categorize_tv_spec. split.
    + intros (r & [Hin|Hin]%elem_of_app & H); [left|right]; exists r; auto.
    + intros [(r & Hin & H)|(r & Hin & H)]; exists r;
        (split; [apply elem_of_app; auto | exact H]).
  - apply set_eq. intros g. change movie with (snd (tv, movie)). rewrite <- E.
    rewrite elem_of_union, !categorize_movie_spec. split.
    + intros (r & [Hin|Hin]%elem_of_app & H); [left|right]; exists r; auto.
    + intros [(r & Hin & H)|(r & Hin & H)]; exists r;
        (split; [apply elem_of_app; auto | exact H]).
Qed.

Lemma categorize_groups_nil : categorize_groups [] = (∅, ∅).
Proof. reflexivity. Qed.

Lemma scrape_loop_spec pages : ∀ all,
  scrape_loop pages all
  = (fst all ∪ fst (categorize_groups (concat (pages_read pages))),
     snd all ∪ snd (categorize_groups (concat (pages_read pages)))).
Proof.
  induction pages as [|releases pages IH]; intros [tv movie].
  - change (categorize_groups (concat (pages_read []))) with (categorize_groups []).
    rewrite categorize_groups_nil. cbn [scrape_loop fst snd].
    rewrite !(right_id_L ∅ (∪)). reflexivity.
  - destruct releases as [|r releases].
    + change (categorize_groups (concat (pages_read ([] :: pages))))
        with (categorize_groups []).
      rewrite categorize_groups_nil. cbn [scrape_loop fst snd].
      rewrite !(right_id_L ∅ (∪)). reflexivity.
    + change (scrape_loop ((r :: releases) :: pages) (tv, movie))
        with (scrape_loop pages
                (tv ∪ fst (categorize_groups (r :: releases)),
                 movie ∪ snd (categorize_groups (r :: releases)))).
      rewrite IH.
      change (concat (pages_read ((r :: releases) :: pages)))
        with ((r :: releases) ++ concat (pages_read pages)).
      rewrite (categorize_groups_app (r :: releases)). simpl fst. simpl snd.
      rewrite !(assoc_L (∪)). reflexivity.
Qed.

Lemma scrape_groups_spec n pages :
  scrape_groups n pages = categorize_groups (concat (pages_read (take n pages))).
Proof.
  unfold scrape_groups. rewrite scrape_loop_spec. simpl.
  rewrite !(left_id_L ∅ (∪)). destruct (categorize_groups _). reflexivity.
Qed.

Lemma pages_read_prefix used more :
  Forall (fun releases => releases ≠ []) used ->
  pages_read (used ++ [] :: more) = used.
Proof.
  induction 1 as [|releases used Hne _ IH]; [reflexivity|].
  destruct releases; [congruence|]. simpl. rewrite IH. reflexivity.
Qed.

Lemma pages_read_all used :
  Forall (fun releases => releases ≠ []) used -> pages_read used = used.
Proof.
  induction 1 as [|releases used Hne _ IH]; [reflexivity|].
  destruct releases; [congruence|]. simpl. rewrite IH. reflexivity.
Qed.

(** X12.  [scrape_groups] gives the sets that [categorize_groups] gives on
    all the releases read, page after page: the pages read are the first
    [batch_count] ones up to the first empty page, and nothing after an
    empty page is read.  Categorizing a list in two parts and joining the
    sets is categorizing the whole list. *)
Theorem scrape_groups_reads_pages :
  (∀ l1 l2, categorize_groups (l1 ++ l2)
            = (fst (categorize_groups l1) ∪ fst (categorize_groups l2),
               snd (categorize_groups l1) ∪ snd (categorize_groups l2)))
  ∧ (∀ n pages, scrape_groups n pages
                = categorize_groups (concat (pages_read (take n pages))))
  ∧ (∀ n used more, Forall (fun releases => releases ≠ []) used ->
        length used < n ->
        scrape_groups n (used ++ [] :: more) = categorize_groups (concat used))
  ∧ (∀ n pages, Forall (fun releases => releases ≠ []) pages ->
        scrape_groups n pages = categorize_groups (concat (take n pages)))
  ∧ (∀ pages, scrape_groups 0 pages = (∅, ∅)).
Proof.
  split; [exact categorize_groups_app|]. split; [exact scrape_groups_spec|].
  split; [|split].
  - intros n used more Hne Hlen. rewrite scrape_groups_spec.
    rewrite firstn_app, (take_ge used) by lia.
    destruct (n - length used) as [|k] eqn:E; [lia|].
    change (take (S k) ([] :: more)) with ([] :: take k more).
    rewrite (pages_read_prefix _ _ Hne). reflexivity.
  - intros n pages Hne. rewrite scrape_groups_spec, pages_read_all; [reflexivity|].
    apply Forall_take, Hne.
  - intros pages. reflexivity.
Qed.

Lemma is_space_to_lower c : Chr.is_space (Chr.to_lower c) = Chr.is_space c.
Proof. by_cases_on_char c. Qed.

Lemma trimmed_lower s : trimmed s -> trimmed (Str.lower s).
Proof.
  intros [Hhead Hlast]. split.
  - intros c t (c' & t' & -> & <- & _)%lower_cons_inv.
    rewrite is_space_to_lower. eapply Hhead. reflexivity.
  - intros t c (t' & b' & -> & _ & Hb)%lower_split.
    apply lower_cons_inv in Hb as (c' & t'' & -> & <- & ->%lower_empty).
    rewrite is_space_to_lower. eapply Hlast. reflexivity.
Qed.

Lemma team_wellformed release :
  ¬ no_team release ->
  Str.lower (team_of release) ≠ "" ∧ Str.lower (team_of release) ≠ "none"
  ∧ Str.lower (Str.lower (team_of release)) = Str.lower (team_of release)
  ∧ trimmed (Str.lower (team_of release)).
Proof.
  unfold no_team. intros Hno. repeat split.
  - rewrite lower_empty. tauto.
  - tauto.
  - apply lower_idemp.
  - apply (proj1 (trimmed_lower _ (strip_trimmed _))).
  - apply (proj2 (trimmed_lower _ (strip_trimmed _))).
Qed.

(** X13.  No set of update_blacklist.py ever holds the empty text or the
    word none; every member is lower-cased and has no whitespace at either
    end.  This holds for the set of [extract_groups] and for the two sets
    of [scrape_groups]. *)
Theorem api_groups_wellformed :
  (∀ releases g, g ∈ extract_groups releases ->
      g ≠ "" ∧ g ≠ "none" ∧ Str.lower g = g ∧ trimmed g)
  ∧ (∀ n pages g,
      g ∈ fst (scrape_groups n pages) ∪ snd (scrape_groups n pages) ->
      g ≠ "" ∧ g ≠ "none" ∧ Str.lower g = g ∧ trimmed g).
Proof.
  split.
  - intros releases g (r & _ & Hno & ->)%extract_groups_spec.
    apply team_wellformed, Hno.
  - intros n pages g. rewrite scrape_groups_spec.
    intros [H|H]%elem_of_union.
    + apply categorize_tv_spec in H as (r & _ & Hno & _ & ->).
      apply team_wellformed, Hno.
    + apply categorize_movie_spec in H as (r & _ & Hno & _ & _ & ->).
      apply team_wellformed, Hno.
Qed.

(** X14.  One release goes to at most one of the two sets, so a group is
    counted in the overlap of the STATS block, [len(tv_groups &
    movie_groups)], exactly when one release with a TV category and another
    release with a movie category and no TV category carry its team; the
    overlap is at most the size of either set. *)
Theorem overlap_needs_two_releases (releases : list (gmap string string)) :
  (∀ g, g ∈ fst (categorize_groups releases) ∩ snd (categorize_groups releases) ↔
        ∃ r1 r2, r1 ∈ releases ∧ r2 ∈ releases ∧ r1 ≠ r2
          ∧ ¬ no_team r1 ∧ tv_cat r1 ∧ g = Str.lower (team_of r1)
          ∧ ¬ no_team r2 ∧ ¬ tv_cat r2 ∧ movie_cat r2 ∧ g = Str.lower (team_of r2))
  ∧ size (fst (categorize_groups releases) ∩ snd (categorize_groups releases))
    ≤ size (fst (categorize_groups releases))
  ∧ size (fst (categorize_groups releases) ∩ snd (categorize_groups releases))
    ≤ size (snd (categorize_groups releases)).
Proof.
  split; [|split].
  - intros g. rewrite elem_of_intersection, categorize_tv_spec, categorize_movie_spec.
    split.
    + intros [(r1 & Hin1 & Hno1 & Htv1 & Hg1) (r2 & Hin2 & Hno2 & Htv2 & Hm2 & Hg2)].
      exists r1, r2. repeat split; try assumption. intros ->. tauto.
    + intros (r1 & r2 & Hin1 & Hin2 & _ & Hno1 & Htv1 & Hg1 & Hno2 & Htv2 & Hm2 & Hg2).
      split; [exists r1 | exists r2]; auto.
  - apply subseteq_size. intros g [Hg _]%elem_of_intersection. exact Hg.
  - apply subseteq_size. intros g [_ Hg]%elem_of_intersection. exact Hg.
Qed.

(* ===================================================================== *)
(** ** The lines that [generate_go_arrays] prints *)

Lemma slice_ten i xs : slice i (i + 10) xs = take 10 (drop i xs).
Proof. unfold slice. replace (i + 10 - i) with 10 by lia. reflexivity. Qed.

Lemma batches_loop xs : ∀ fuel i,
  length (drop i xs) ≤ fuel ->
  concat (List.map (fun i => slice i (i + 10) xs) (range_loop fuel i (length xs) 10))
  = drop i xs
  ∧ Forall (fun b => 0 < length b <= 10)
      (List.map (fun i => slice i (i + 10) xs) (range_loop fuel i (length xs) 10)).
Proof.
  induction fuel as [|fuel IH]; intros i Hfuel; simpl.
  - split; [|constructor]. symmetry. apply nil_length_inv. lia.
  - rewrite length_drop in Hfuel.
    destruct (i <? length xs)%nat eqn:Hi.
    + apply Nat.ltb_lt in Hi.
      destruct (IH (i + 10)) as [Hcat Hall]; [rewrite length_drop; lia|].
      simpl. rewrite Hcat, slice_ten. split.
      * rewrite <- drop_drop. apply take_drop.
      * constructor; [|exact Hall]. rewrite length_take, length_drop. lia.
    + apply Nat.ltb_ge in Hi. split; [|constructor].
      symmetry. apply drop_ge. exact Hi.
Qed.

(** X15.  [generate_go_arrays] prints every group of a sorted sequence
    once, in order, ten to a line at most and no empty line: the fuel of
    the loop over [range(0, len, 10)] is enough to reach the end of the
    sequence.  What is printed for a set is a sorted arrangement of its
    members. *)
Theorem print_batches_ten_per_line :
  (∀ xs, concat (print_batches xs) = xs)
  ∧ (∀ xs, Forall (fun b => 0 < length b <= 10) (print_batches xs))
  ∧ (∀ tv movie,
       concat (print_batches (fst (generate_go_arrays tv movie))) ≡ₚ tv
       ∧ concat (print_batches (snd (generate_go_arrays tv movie))) ≡ₚ movie)
  ∧ print_batches [] = [].
Proof.
  assert (H : ∀ xs, concat (print_batches xs) = xs
                    ∧ Forall (fun b => 0 < length b <= 10) (print_batches xs)).
  { intros xs. unfold print_batches, range.
    destruct (batches_loop xs (length xs - 0) 0) as [Hcat Hall].
    - rewrite length_drop. lia.
    - split; [exact Hcat | exact Hall]. }
  split; [intros xs; apply H|]. split; [intros xs; apply H|]. split; [|reflexivity].
  intros tv movie. rewrite !(proj1 (H _)). unfold generate_go_arrays. simpl.
  split; apply sorted_perm.
Qed.

(* ===================================================================== *)
(** ** Exclusion by prefix, and the pipeline end to end *)

Lemma string_length_append s t :
  String.length (s +:+ t) = String.length s + String.length t.
Proof.
  induction s as [|c s IH]; [reflexivity|].
  rewrite sapp_cons. simpl. rewrite IH. reflexivity.
Qed.

Lemma string_length_lower s : String.length (Str.lower s) = String.length s.
Proof.
  induction s as [|c s IH]; [reflexivity|]. rewrite lower_cons. simpl. congruence.
Qed.

Lemma exclude_words_long w : w ∈ exclude_words -> 3 <= String.length w.
Proof.
  unfold exclude_words. rewrite !elem_of_cons, elem_of_nil.
  intros H. repeat (destruct H as [->|H]; [simpl; lia|]). destruct H.
Qed.

(** X16.  Exclusion is by prefix: a token that is excluded stays excluded
    whatever is appended to it, each of the seven words followed by any
    text is excluded, and no token of fewer than three characters is. *)
Theorem exclusion_is_by_prefix :
  (∀ tok suffix, is_excluded tok = true -> is_excluded (tok +:+ suffix) = true)
  ∧ (∀ w suffix, w ∈ exclude_words -> is_excluded (w +:+ suffix) = true)
  ∧ (∀ tok, is_excluded tok = true -> 3 <= String.length tok).
Proof.
  split; [|split].
  - intros tok suffix (w & Hin & mid & post & -> & Hw)%is_excluded_spec.
    apply is_excluded_spec. exists w. split; [exact Hin|].
    exists mid, (post +:+ suffix). rewrite sapp_assoc. auto.
  - intros w suffix Hin. apply is_excluded_spec. exists w. split; [exact Hin|].
    exists w, suffix. auto.
  - intros tok (w & Hin & mid & post & -> & Hw)%is_excluded_spec.
    apply exclude_words_long in Hin.
    apply (f_equal String.length) in Hw. rewrite !string_length_lower in Hw.
    rewrite string_length_append. lia.
Qed.

(** X17.  [main] end to end: an entry is written in the [releaseGroups]
    slice if and only if some line of the dump has a release name that is
    classified TV or Movie and ends in a hyphen followed by a token that is
    a letter followed by one or more letters or digits and begins with none
    of the excluded words; the entry is that token lower-cased. *)
Theorem main_end_to_end (lines : list string) (e : string) :
  e ∈ releaseGroups (main lines) ↔
  ∃ line pre g,
    line ∈ lines
    ∧ classify (release_name line) ≠ Unclassified
    ∧ release_name line = pre +:+ "-" +:+ g
    ∧ letter_led g
    ∧ (∀ w, w ∈ exclude_words -> ¬ starts_nocase w g)
    ∧ e = Str.lower g.
Proof.
  rewrite main_releaseGroups. split.
  - intros (g & Hg & ->).
    pose proof (valid_mined_letter_led lines g Hg) as Hled.
    apply filter_valid_groups_spec in Hg as [Hg Hv].
    apply filter_tv_movie_groups_spec in Hg as (line & Hin & Hc & He).
    apply (trimmed_candidate _ _ (strip_trimmed _)) in He as (pre & Hname & _).
    unfold validate in Hv. apply andb_true_iff in Hv as [_ Hx].
    apply negb_true_iff in Hx.
    exists line, pre, g. repeat split; try assumption.
    intros w Hw Hst. assert (is_excluded g = true) as Hex
      by (apply is_excluded_spec; eauto).
    congruence.
  - intros (line & pre & g & Hin & Hc & Hname & Hled & Hno & ->).
    exists g. split; [|reflexivity].
    apply filter_valid_groups_spec. split.
    + apply filter_tv_movie_groups_spec. exists line. repeat split; try assumption.
      apply (trimmed_candidate _ _ (strip_trimmed _)). exists pre.
      split; [exact Hname | apply letter_led_alnum_run, Hled].
    + unfold validate. apply andb_true_iff. split.
      * apply is_valid_shape_spec. destruct Hled as (c & body & -> & Hc' & Hrun).
        exists c, body, "". rewrite sapp_nil_r. auto.
      * apply negb_true_iff, not_true_is_false. rewrite is_excluded_spec.
        intros (w & Hw & Hst). exact (Hno w Hw Hst).
Qed.

(* ===================================================================== *)
(** ** Classification of a name of any characters: the matcher and the
    indicators *)

Section UniFacts.

Variable uchar : Type.
Variable is_decimal : uchar -> bool.
Variable matches_nocase : ascii -> uchar -> bool.

Local Abbreviation urun := (Uni.run uchar is_decimal matches_nocase).
Local Abbreviation usearch := (Uni.search uchar is_decimal matches_nocase).
Local Abbreviation umatches := (Uni.matches uchar is_decimal matches_nocase).
Local Abbreviation uoccurs := (Uni.occurs uchar matches_nocase).
Local Abbreviation uword_matches := (Uni.word_matches uchar matches_nocase).

Lemma urun_sound r : ∀ s k res,
  urun r s k = Some res -> ∃ s', umatches r s s' ∧ k s' = Some res.
Proof.
  induction r as [|c| |r1 IH1 r2 IH2|r1 IH1 r2 IH2]; intros s k res; simpl.
  - intros Hk. exists s. split; [constructor | exact Hk].
  - destruct s as [|x s]; [discriminate|].
    destruct (matches_nocase c x) eqn:Hc; [|discriminate].
    intros Hk. exists s. split; [constructor; exact Hc | exact Hk].
  - destruct s as [|x s]; [discriminate|].
    destruct (is_decimal x) eqn:Hx; [|discriminate].
    intros Hk. exists s. split; [constructor; exact Hx | exact Hk].
  - intros H. apply IH1 in H as (s2 & Hm1 & H).
    apply IH2 in H as (s3 & Hm2 & Hk).
    exists s3. split; [eapply Uni.m_seq; eassumption | exact Hk].
  - destruct (urun r1 s k) as [r|] eqn:H1.
    + intros [= <-]. apply IH1 in H1 as (s' & Hm & Hk).
      exists s'. split; [apply Uni.m_alt_l; exact Hm | exact Hk].
    + intros H2. apply IH2 in H2 as (s' & Hm & Hk).
      exists s'. split; [apply Uni.m_alt_r; exact Hm | exact Hk].
Qed.

Lemma urun_complete r s s' :
  umatches r s s' -> ∀ k, is_Some (k s') -> is_Some (urun r s k).
Proof.
  induction 1 as [s|c x s Hc|x s Hx|r1 r2 s1 s2 s3 _ IH1 _ IH2
                  |r1 r2 s s' _ IH|r1 r2 s s' _ IH];
    intros k Hk; simpl.
  - exact Hk.
  - rewrite Hc. exact Hk.
  - rewrite Hx. exact Hk.
  - apply IH1, IH2, Hk.
  - destruct (IH k Hk) as [res ->]. eexists; reflexivity.
  - destruct (urun r1 s k); [eexists; reflexivity | apply IH, Hk].
Qed.

(** [search] finds a match exactly when some suffix of the text has one at
    its head. *)
Lemma usearch_is_Some r s :
  is_Some (usearch r s) ↔ ∃ pre suf s', s = pre ++ suf ∧ umatches r suf s'.
Proof.
  split.
  - intros [res H]. induction s as [|x s IH]; simpl in H.
    + destruct (urun r [] Some) as [m|] eqn:Hrun; [|discriminate].
      apply urun_sound in Hrun as (s' & Hm & _). exists [], [], s'. auto.
    + destruct (urun r (x :: s) Some) as [m|] eqn:Hrun.
      * apply urun_sound in Hrun as (s' & Hm & _). exists [], (x :: s), s'. auto.
      * destruct (IH H) as (pre & suf & s' & -> & Hm).
        exists (x :: pre), suf, s'. auto.
  - intros (pre & suf & s' & -> & Hm).
    assert (is_Some (urun r suf Some)) as [m Hrun]
      by (eapply urun_complete; [exact Hm | eexists; reflexivity]).
    induction pre as [|x pre IH]; simpl.
    + destruct suf; simpl; rewrite Hrun; eexists; reflexivity.
    + destruct (urun r (x :: pre ++ suf) Some); [eexists; reflexivity | exact IH].
Qed.

Lemma umatches_seq_inv r1 r2 s s' :
  umatches (Uni.Seq r1 r2) s s' -> ∃ s2, umatches r1 s s2 ∧ umatches r2 s2 s'.
Proof. intros H. inv H. eauto. Qed.

Lemma umatches_lit_inv c s s' :
  umatches (Uni.Lit c) s s' -> ∃ x, s = x :: s' ∧ matches_nocase c x = true.
Proof. intros H. inv H. eauto. Qed.

Lemma umatches_decimal_inv s s' :
  umatches Uni.Decimal s s' -> ∃ x, s = x :: s' ∧ is_decimal x = true.
Proof. intros H. inv H. eauto. Qed.

Lemma umatches_alts r rs s s' :
  umatches (Uni.alts r rs) s s' ↔
  umatches r s s' ∨ ∃ r', r' ∈ rs ∧ umatches r' s s'.
Proof.
  revert r. induction rs as [|r1 rs IH]; intros r; simpl.
  - split; [auto|]. intros [H|(r' & Hin & _)]; [exact H | inv Hin].
  - split.
    + intros H. inv H; [auto|]. right.
      match goal with H : umatches (Uni.alts _ _) _ _ |- _ =>
        apply IH in H as [H|(r' & Hin & H)] end.
      * exists r1. split; [left | assumption].
      * exists r'. split; [right; exact Hin | assumption].
    + intros [H|(r' & Hin & H)]; [apply Uni.m_alt_l; exact H|].
      apply Uni.m_alt_r, IH.
      apply elem_of_cons in Hin as [->|Hin]; [auto|]. right. exists r'. auto.
Qed.

(** A literal word matches the texts that match it character by
    character. *)
Lemma umatches_word w : ∀ s s',
  umatches (Uni.word w) s s' ↔ ∃ mid, s = mid ++ s' ∧ uword_matches w mid.
Proof.
  unfold Uni.word_matches.
  induction w as [|c w IH]; intros s s'; simpl.
  - split.
    + intros H. inv H. exists []. split; [reflexivity | constructor].
    + intros (mid & -> & Hw). inv Hw. constructor.
  - split.
    + intros (s2 & (x & -> & Hx)%umatches_lit_inv & H)%umatches_seq_inv.
      apply IH in H as (mid & -> & Hw).
      exists (x :: mid). split; [reflexivity | constructor; assumption].
    + intros (mid & -> & Hw). inv Hw.
      eapply Uni.m_seq; [constructor; eassumption|].
      apply IH. eexists. split; [reflexivity | eassumption].
Qed.

Lemma uoccurs_matches w s :
  uoccurs w s ↔ ∃ pre suf s', s = pre ++ suf ∧ umatches (Uni.word w) suf s'.
Proof.
  split.
  - intros (pre & mid & post & -> & Hw).
    exists pre, (mid ++ post), post. split; [reflexivity|].
    apply umatches_word. eauto.
  - intros (pre & suf & s' & -> & (mid & -> & Hw)%umatches_word).
    exists pre, mid, s'. auto.
Qed.

Lemma usearch_words w ws s :
  is_Some (usearch (Uni.any_of (w :: ws)) s) ↔ ∃ w', w' ∈ w :: ws ∧ uoccurs w' s.
Proof.
  rewrite usearch_is_Some. simpl. split.
  - intros (pre & suf & s' & Heq & Hm).
    apply umatches_alts in Hm as [Hm|(r' & Hin & Hm)].
    + exists w. split; [left|]. apply uoccurs_matches. eauto.
    + apply list_elem_of_In, in_map_iff in Hin as (w' & <- & Hin).
      exists w'. split; [right; apply list_elem_of_In, Hin|].
      apply uoccurs_matches. eauto.
  - intros (w' & Hin & (pre & suf & s' & Heq & Hm)%uoccurs_matches).
    exists pre, suf, s'. split; [exact Heq|]. apply umatches_alts.
    apply elem_of_cons in Hin as [->|Hin]; [left; exact Hm|].
    right. exists (Uni.word w'). split; [|exact Hm].
    apply list_elem_of_In, in_map, list_elem_of_In, Hin.
Qed.

Lemma uepisode_marker_matches s :
  Uni.episode_marker uchar is_decimal matches_nocase s ↔
  ∃ pre suf s', s = pre ++ suf ∧ umatches Uni.episode_regex suf s'.
Proof.
  unfold Uni.episode_marker, Uni.episode_regex. split.
  - intros (pre & c1 & d1 & d2 & c2 & d3 & d4 & post & -> & H1 & H2 & D1 & D2 & D3 & D4).
    eexists pre, _, post. split; [reflexivity|].
    eapply Uni.m_seq; [apply Uni.m_lit; exact H1|].
    eapply Uni.m_seq; [apply Uni.m_decimal; exact D1|].
    eapply Uni.m_seq; [apply Uni.m_decimal; exact D2|].
    eapply Uni.m_seq; [apply Uni.m_lit; exact H2|].
    eapply Uni.m_seq; [apply Uni.m_decimal; exact D3|].
    apply Uni.m_decimal. exact D4.
  - intros (pre & suf & s' & -> & Hm).
    apply umatches_seq_inv in Hm as (s1 & (c1 & -> & H1)%umatches_lit_inv & Hm).
    apply umatches_seq_inv in Hm as (s2 & (d1 & -> & D1)%umatches_decimal_inv & Hm).
    apply umatches_seq_inv in Hm as (s3 & (d2 & -> & D2)%umatches_decimal_inv & Hm).
    apply umatches_seq_inv in Hm as (s4 & (c2 & -> & H2)%umatches_lit_inv & Hm).
    apply umatches_seq_inv in Hm as (s5 & (d3 & -> & D3)%umatches_decimal_inv & Hm).
    apply umatches_decimal_inv in Hm as (d4 & -> & D4).
    exists pre, c1, d1, d2, c2, d3, d4, s'. auto 10.
Qed.

Lemma uis_tv_spec s :
  Uni.is_tv uchar is_decimal matches_nocase s = true ↔
  Uni.tv_indicator uchar is_decimal matches_nocase s.
Proof.
  unfold Uni.is_tv, Uni.tv_indicator, Uni.tv_pattern.
  rewrite bool_decide_eq_true, usearch_is_Some, uepisode_marker_matches,
    !uoccurs_matches.
  split.
  - intros (pre & suf & s' & Heq & Hm).
    apply umatches_alts in Hm as [Hm|(r' & Hin & Hm)]; [left; eauto|].
    right. apply elem_of_cons in Hin as [->|Hin]; [left; eauto|].
    apply list_elem_of_singleton in Hin as ->. right; eauto.
  - intros [(pre & suf & s' & Heq & Hm)|[(pre & suf & s' & Heq & Hm)|(pre & suf & s' & Heq & Hm)]];
      exists pre, suf, s'; (split; [exact Heq|]); apply umatches_alts.
    + left. exact Hm.
    + right. exists (Uni.word "Season"). split; [left | exact Hm].
    + right. exists (Uni.word "Episode"). split; [right; left | exact Hm].
Qed.

Lemma uis_movie_spec s :
  Uni.is_movie uchar is_decimal matches_nocase s = true ↔
  Uni.movie_indicator uchar matches_nocase s
  ∧ ¬ Uni.tv_indicator uchar is_decimal matches_nocase s.
Proof.
  unfold Uni.is_movie, Uni.movie_pattern, Uni.movie_indicator.
  rewrite andb_true_iff, bool_decide_eq_true, negb_true_iff, <- uis_tv_spec.
  unfold movie_words at 1. rewrite usearch_words. fold movie_words.
  destruct (Uni.is_tv _ _ _ s); split; intros [Hm Ht]; (split; [exact Hm|]); congruence.
Qed.

End UniFacts.

(* ===================================================================== *)
(** ** The classification of the mining loop is the one above, on texts of
    characters below 256 *)

Lemma chars_app a b :
  list_ascii_of_string (a +:+ b) = list_ascii_of_string a ++ list_ascii_of_string b.
Proof.
  induction a as [|c a IH]; [reflexivity|].
  rewrite sapp_cons. simpl. rewrite IH. reflexivity.
Qed.

Lemma chars_inj a b : list_ascii_of_string a = list_ascii_of_string b -> a = b.
Proof.
  intros H. apply (f_equal string_of_list_ascii) in H.
  rewrite !string_of_list_ascii_of_string in H. exact H.
Qed.

Lemma chars_split s pre suf :
  list_ascii_of_string s = pre ++ suf ->
  ∃ a b, s = a +:+ b ∧ list_ascii_of_string a = pre ∧ list_ascii_of_string b = suf.
Proof.
  intros H. exists (string_of_list_ascii pre), (string_of_list_ascii suf).
  rewrite !list_ascii_of_string_of_list_ascii. split; [|auto].
  apply chars_inj. rewrite chars_app, !list_ascii_of_string_of_list_ascii. exact H.
Qed.

Lemma chars_cons_inv s x l :
  list_ascii_of_string s = x :: l -> ∃ t, s = String x t ∧ list_ascii_of_string t = l.
Proof. destruct s as [|c t]; [discriminate|]. simpl. intros [= -> <-]. eauto. Qed.

Lemma word_matches_latin1 w : ∀ mid,
  Uni.word_matches ascii (Chr.eqb_case true) w (list_ascii_of_string mid)
  ↔ Str.lower mid = Str.lower w.
Proof.
  unfold Uni.word_matches.
  induction w as [|c w IH]; intros mid; simpl.
  - split.
    + intros H. inv H. destruct mid; [reflexivity | discriminate].
    + intros ->%lower_empty. constructor.
  - split.
    + intros H. inv H.
      match goal with H : _ :: _ = list_ascii_of_string mid |- _ =>
        symmetry in H; apply chars_cons_inv in H as (t & -> & <-) end.
      rewrite !lower_cons. f_equal.
      * apply eqb_case_nocase. assumption.
      * apply IH. assumption.
    + intros H. rewrite lower_cons in H.
      apply lower_cons_inv in H as (x & t & -> & Hx & Ht).
      simpl. constructor; [apply eqb_case_nocase; exact Hx | apply IH, Ht].
Qed.

Lemma occurs_latin1 w s :
  Uni.occurs ascii (Chr.eqb_case true) w (list_ascii_of_string s) ↔ occurs_nocase w s.
Proof.
  split.
  - intros (pre & mid & post & H & Hw).
    apply chars_split in H as (a & r & -> & <- & H).
    apply chars_split in H as (m & b & -> & <- & <-).
    exists a, m, b. split; [reflexivity|]. apply word_matches_latin1, Hw.
  - intros (pre & mid & post & -> & Hw).
    exists (list_ascii_of_string pre), (list_ascii_of_string mid),
      (list_ascii_of_string post).
    rewrite !chars_app. split; [reflexivity|]. apply word_matches_latin1, Hw.
Qed.

Lemma episode_marker_latin1 s :
  Uni.episode_marker ascii Chr.is_digit (Chr.eqb_case true) (list_ascii_of_string s)
  ↔ episode_marker s.
Proof.
  split.
  - intros (pre & c1 & d1 & d2 & c2 & d3 & d4 & post & H & H1 & H2 & D).
    apply chars_split in H as (a & r & -> & <- & H).
    apply chars_cons_inv in H as (r1 & -> & H).
    apply chars_cons_inv in H as (r2 & -> & H).
    apply chars_cons_inv in H as (r3 & -> & H).
    apply chars_cons_inv in H as (r4 & -> & H).
    apply chars_cons_inv in H as (r5 & -> & H).
    apply chars_cons_inv in H as (r6 & -> & <-).
    apply eqb_case_nocase in H1, H2.
    exists a, c1, d1, d2, c2, d3, d4, r6. auto.
  - intros (pre & c1 & d1 & d2 & c2 & d3 & d4 & post & -> & H1 & H2 & D).
    exists (list_ascii_of_string pre), c1, d1, d2, c2, d3, d4,
      (list_ascii_of_string post).
    rewrite chars_app. cbn [list_ascii_of_string].
    destruct D as (D1 & D2 & D3 & D4).
    repeat split; try assumption; apply eqb_case_nocase; assumption.
Qed.

Lemma tv_indicator_latin1 s :
  Uni.tv_indicator ascii Chr.is_digit (Chr.eqb_case true) (list_ascii_of_string s)
  ↔ tv_indicator s.
Proof.
  unfold Uni.tv_indicator, tv_indicator.
  rewrite episode_marker_latin1, !occurs_latin1. reflexivity.
Qed.

Lemma movie_indicator_latin1 s :
  Uni.movie_indicator ascii (Chr.eqb_case true) (list_ascii_of_string s)
  ↔ movie_indicator s.
Proof.
  unfold Uni.movie_indicator, movie_indicator.
  split; intros (w & Hin & H); exists w; (split; [exact Hin|]);
    apply occurs_latin1, H.
Qed.

Lemma classify_latin1 s :
  classify s
  = Uni.classify ascii Chr.is_digit (Chr.eqb_case true) (list_ascii_of_string s).
Proof.
  assert (Htv : is_tv s
    = Uni.is_tv ascii Chr.is_digit (Chr.eqb_case true) (list_ascii_of_string s)).
  { apply Bool.eq_iff_eq_true.
    rewrite is_tv_spec, uis_tv_spec, tv_indicator_latin1. reflexivity. }
  assert (Hmv : is_movie s
    = Uni.is_movie ascii Chr.is_digit (Chr.eqb_case true) (list_ascii_of_string s)).
  { apply Bool.eq_iff_eq_true.
    rewrite is_movie_spec, uis_movie_spec, tv_indicator_latin1, movie_indicator_latin1.
    reflexivity. }
  unfold classify, Uni.classify. rewrite Htv, Hmv. reflexivity.
Qed.

(** C4.  For a release name of any characters, with [\d] and the
    case-blind comparison of [re.IGNORECASE] as [re] takes them from the
    Unicode database: [classify] returns TV exactly when a TV indicator
    matches (S, two digits, E, two digits, or one of the words Season and
    Episode, letters in any case), whether or not a movie indicator matches
    too; Movie exactly when a movie indicator matches and no TV indicator
    does; Unclassified exactly when neither matches.  The [classify] of the
    mining loop is this function on texts of characters below 256. *)
Theorem classify_tv_precedence_any_text :
  (∀ (uchar : Type) (is_decimal : uchar -> bool)
     (matches_nocase : ascii -> uchar -> bool) (s : list uchar),
     (Uni.classify uchar is_decimal matches_nocase s = TV
        ↔ Uni.tv_indicator uchar is_decimal matches_nocase s)
     ∧ (Uni.classify uchar is_decimal matches_nocase s = Movie
        ↔ Uni.movie_indicator uchar matches_nocase s
          ∧ ¬ Uni.tv_indicator uchar is_decimal matches_nocase s)
     ∧ (Uni.classify uchar is_decimal matches_nocase s = Unclassified
        ↔ ¬ Uni.tv_indicator uchar is_decimal matches_nocase s
          ∧ ¬ Uni.movie_indicator uchar matches_nocase s))
  ∧ (∀ s, classify s
          = Uni.classify ascii Chr.is_digit (Chr.eqb_case true)
              (list_ascii_of_string s)).
Proof.
  split; [|exact classify_latin1].
  intros uchar is_decimal matches_nocase s.
  pose proof (uis_tv_spec uchar is_decimal matches_nocase s) as Htv.
  pose proof (uis_movie_spec uchar is_decimal matches_nocase s) as Hmv.
  unfold Uni.classify.
  destruct (Uni.is_tv _ _ _ s) eqn:Et; [|destruct (Uni.is_movie _ _ _ s) eqn:Em].
  - assert (Uni.tv_indicator uchar is_decimal matches_nocase s) as Ht
      by (apply Htv; reflexivity).
    repeat split; try discriminate; tauto.
  - assert (¬ Uni.tv_indicator uchar is_decimal matches_nocase s) as Ht
      by (rewrite <- Htv; discriminate).
    assert (Uni.movie_indicator uchar matches_nocase s) as Hm
      by (apply Hmv; reflexivity).
    repeat split; try discriminate; tauto.
  - assert (¬ Uni.tv_indicator uchar is_decimal matches_nocase s) as Ht
      by (rewrite <- Htv; discriminate).
    assert (¬ (Uni.movie_indicator uchar matches_nocase s
               ∧ ¬ Uni.tv_indicator uchar is_decimal matches_nocase s)) as Hm
      by (rewrite <- Hmv; discriminate).
    repeat split; try discriminate; tauto.
Qed.
